(** * genetic_bass: the evolutionary bassline sketch, embedded and checked

    The sketch [genetic.ino] keeps a population of 100 genomes of 64 steps,
    scores them against a chord progression and a preference table, and
    lets two buttons drive a mutate / re-randomise cycle from a 64-step
    sequencer.  This file embeds the genome model, the scoring function,
    the population operations and the sequencer tick, and states the
    properties of the design document against them.

    Conventions.
    - [byte] is an unsigned 8-bit value, [int] a signed 16-bit one (the
      AVR target of the sketch), [unsigned long] an unsigned 32-bit one.
      All are carried as [Z]; every store into a typed variable is
      written with its conversion ([to_byte], [to_int], [to_ulong]).
    - Arrays are lists read with [!!!] and written with [<[ _ := _ ]>];
      loop counters are [nat].
    - [random()] is an oracle: an infinite sequence of raw non-negative
      results and a cursor into it. *)

From Stdlib Require Import ZArith QArith Lia.
From stdpp Require Import base list numbers.

Local Open Scope Z_scope.

(** ** Machine integers *)

Module Machine.

Definition to_byte (z : Z) : Z := z mod 256.

Definition to_int (z : Z) : Z := (z + 32768) mod 65536 - 32768.

Definition to_ulong (z : Z) : Z := z mod 4294967296.

(** Arduino.h: [#define abs(x) ((x)>0?(x):-(x))], on an [int] operand. *)
Definition c_abs (x : Z) : Z := if 0 <? x then x else to_int (- x).

(** A C [for (int i = lo; i < lo + count; i++) body] over a state. *)
Fixpoint for_loop {S : Type} (lo count : nat) (body : nat → S → S) (s : S) : S :=
  match count with
  | O => s
  | Datatypes.S c => for_loop (Datatypes.S lo) c body (body lo s)
  end.

End Machine.

Import Machine.

(** ** Constants and tables *)

Definition NUM_STEPS : nat := 64.
Definition NUM_NOTES : Z := 12.
Definition POP_SIZE : nat := 100.

(** The initialisers of [JAZZ_TABLE] exactly as the sketch lists them. *)
Definition JAZZ_TABLE_init : list (list Z) :=
  [ [10; 0; 7; 0; 5; 0; 3];
    [10; 0; 5; 0; 7; 0; 3];
    [10; 0; 7; 0; 5; -5; -10];
    [10; -5; -10; -5; -10; -5; -10];
    [10; -5; -10; -5; -10; -5; -10];
    [10; -5; -10; -5; -10; -5; -10];
    [10; -5; -10; -5; -10; -5; -10] ].

(** [const byte JAZZ_TABLE[7][7]]: each initialiser is converted to the
    element type [byte]. *)
Definition JAZZ_TABLE : list (list Z) := map (map to_byte) JAZZ_TABLE_init.

(** [const byte CHORD_PROGRESSION[4][2]]: (chord type, root). *)
Definition CHORD_PROGRESSION : list (Z * Z) :=
  [ (0, 0); (1, 9); (2, 7); (1, 2) ].

(** Bounds-checked two-dimensional indexing: [None] when the row or the
    column leaves the 7x7 table. *)
Definition JAZZ_TABLE_at (chord_type scale_degree : Z) : option Z :=
  row ← JAZZ_TABLE !! Z.to_nat chord_type;
  row !! Z.to_nat scale_degree.

(** What the object code reads for [JAZZ_TABLE[r][c]]: the byte at offset
    [7*r + c] of the table's 49 contiguous bytes (row-major).  A column
    index of 7 or more lands in a following row. *)
Definition JAZZ_TABLE_read (chord_type scale_degree : Z) : Z :=
  concat JAZZ_TABLE !!! Z.to_nat (7 * chord_type + scale_degree).

Definition chord_type_at (i : nat) : Z :=
  fst (CHORD_PROGRESSION !!! (i / (NUM_STEPS / 4))%nat).

Definition chord_root_at (i : nat) : Z :=
  snd (CHORD_PROGRESSION !!! (i / (NUM_STEPS / 4))%nat).

(** ** Genomes *)

Record Genome : Type := mkGenome {
  note : list Z;
  octave : list Z;
  waveform : list Z;
  gate : list Z
}.

Global Instance Genome_inhabited : Inhabited Genome :=
  populate (mkGenome [] [] [] []).

(** [byte scale_degree = (note - chord_root + NUM_NOTES) % NUM_NOTES]. *)
Definition scale_degree_at (genome : Genome) (i : nat) : Z :=
  to_byte (Z.rem (note genome !!! i - chord_root_at i + NUM_NOTES) NUM_NOTES).

(** The table accesses of [evaluateGenome], one per step, through the
    bounds-checked indexing. *)
Definition table_accesses (genome : Genome) : list (option Z) :=
  map (λ i, JAZZ_TABLE_at (chord_type_at i) (scale_degree_at genome i))
    (seq 0 NUM_STEPS).

(** ** Scoring *)

(** One iteration of the loop of [evaluateGenome]. *)
Definition evaluateStep (genome : Genome) (i : nat) (score : Z) : Z :=
  let note_ := note genome !!! i in
  let octave_ := octave genome !!! i in
  let waveform_ := waveform genome !!! i in
  let gate_ := gate genome !!! i in
  let chord_type := chord_type_at i in
  let scale_degree := scale_degree_at genome i in
  let score := to_int (score + JAZZ_TABLE_read chord_type scale_degree) in
  let score := to_int (score - c_abs (octave_ - 1) * 2) in
  let score := to_int (score - c_abs (waveform_ - 1) * 2) in
  if (0 <? i)%nat then
    let prev_note := note genome !!! (i - 1)%nat in
    let prev_octave := octave genome !!! (i - 1)%nat in
    let prev_gate := gate genome !!! (i - 1)%nat in
    let interval :=
      to_int (note_ + octave_ * NUM_NOTES - prev_note - prev_octave * NUM_NOTES) in
    let score := to_int (score - c_abs interval) in
    if (interval =? 0) && (gate_ =? 1) && (prev_gate =? 1)
    then to_int (score - 5)
    else score
  else score.

Definition evaluateGenome (genome : Genome) : Z :=
  for_loop 0 NUM_STEPS (evaluateStep genome) 0.

(** ** The pseudo-random source

    [random()] of the runtime library is not part of the sketch.  It is
    taken as an oracle: [raw] is the sequence of its (non-negative [long])
    results and [cursor] counts the calls made so far. *)

Record Random : Type := mkRandom {
  raw : N → N;
  cursor : N
}.

(** WMath.cpp: [long random(long howbig)] returns 0 when [howbig] is 0 and
    [random() % howbig] otherwise. *)
Definition random_at (r : Random) (howbig : Z) (k : N) : Z :=
  Z.rem (Z.of_N (raw r k)) howbig.

Definition random_draw (howbig : Z) (r : Random) : Z * Random :=
  if howbig =? 0 then (0, r)
  else (random_at r howbig (cursor r), mkRandom (raw r) (1 + cursor r)%N).

(** ** The globals of the sketch *)

(** Observable events.  The trace is not a variable of the sketch: it is
    kept by the model and records, in order, each call of the three
    population routines, the note handed to the oscillators by
    [playStep], and each write to the beat pin. *)
Inductive Event : Type :=
  | CallInit
  | CallMutate
  | CallEvaluate
  | PlayNote (note_ octave_ waveform_ gate_ : Z)
  | BeatPin (level : bool).

Record Sketch : Type := mkSketch {
  population : list Genome;
  best_genome : Genome;
  best_score : Z;
  current_step : Z;
  current_bpm : Z;
  step_time : Z;
  last_time : Z;
  beat_on : bool;
  like_pressed : bool;
  dislike_pressed : bool;
  rng : Random;
  trace : list Event
}.

Definition with_population (v : list Genome) (s : Sketch) : Sketch :=
  mkSketch v (best_genome s) (best_score s) (current_step s) (current_bpm s)
    (step_time s) (last_time s) (beat_on s) (like_pressed s)
    (dislike_pressed s) (rng s) (trace s).
Definition with_best_genome (v : Genome) (s : Sketch) : Sketch :=
  mkSketch (population s) v (best_score s) (current_step s) (current_bpm s)
    (step_time s) (last_time s) (beat_on s) (like_pressed s)
    (dislike_pressed s) (rng s) (trace s).
Definition with_best_score (v : Z) (s : Sketch) : Sketch :=
  mkSketch (population s) (best_genome s) v (current_step s) (current_bpm s)
    (step_time s) (last_time s) (beat_on s) (like_pressed s)
    (dislike_pressed s) (rng s) (trace s).
Definition with_current_step (v : Z) (s : Sketch) : Sketch :=
  mkSketch (population s) (best_genome s) (best_score s) v (current_bpm s)
    (step_time s) (last_time s) (beat_on s) (like_pressed s)
    (dislike_pressed s) (rng s) (trace s).
Definition with_current_bpm (v : Z) (s : Sketch) : Sketch :=
  mkSketch (population s) (best_genome s) (best_score s) (current_step s) v
    (step_time s) (last_time s) (beat_on s) (like_pressed s)
    (dislike_pressed s) (rng s) (trace s).
Definition with_step_time (v : Z) (s : Sketch) : Sketch :=
  mkSketch (population s) (best_genome s) (best_score s) (current_step s)
    (current_bpm s) v (last_time s) (beat_on s) (like_pressed s)
    (dislike_pressed s) (rng s) (trace s).
Definition with_last_time (v : Z) (s : Sketch) : Sketch :=
  mkSketch (population s) (best_genome s) (best_score s) (current_step s)
    (current_bpm s) (step_time s) v (beat_on s) (like_pressed s)
    (dislike_pressed s) (rng s) (trace s).
Definition with_beat_on (v : bool) (s : Sketch) : Sketch :=
  mkSketch (population s) (best_genome s) (best_score s) (current_step s)
    (current_bpm s) (step_time s) (last_time s) v (like_pressed s)
    (dislike_pressed s) (rng s) (trace s).
Definition with_like_pressed (v : bool) (s : Sketch) : Sketch :=
  mkSketch (population s) (best_genome s) (best_score s) (current_step s)
    (current_bpm s) (step_time s) (last_time s) (beat_on s) v
    (dislike_pressed s) (rng s) (trace s).
Definition with_dislike_pressed (v : bool) (s : Sketch) : Sketch :=
  mkSketch (population s) (best_genome s) (best_score s) (current_step s)
    (current_bpm s) (step_time s) (last_time s) (beat_on s) (like_pressed s)
    v (rng s) (trace s).
Definition with_rng (v : Random) (s : Sketch) : Sketch :=
  mkSketch (population s) (best_genome s) (best_score s) (current_step s)
    (current_bpm s) (step_time s) (last_time s) (beat_on s) (like_pressed s)
    (dislike_pressed s) v (trace s).
Definition with_trace (v : list Event) (s : Sketch) : Sketch :=
  mkSketch (population s) (best_genome s) (best_score s) (current_step s)
    (current_bpm s) (step_time s) (last_time s) (beat_on s) (like_pressed s)
    (dislike_pressed s) (rng s) v.

(** ** A state monad over the globals *)

Definition Cmd (A : Type) : Type := Sketch → A * Sketch.

Definition ret {A : Type} (a : A) : Cmd A := λ s, (a, s).

Definition bind {A B : Type} (m : Cmd A) (k : A → Cmd B) : Cmd B :=
  λ s, let (a, s') := m s in k a s'.

Definition get : Cmd Sketch := λ s, (s, s).

Definition modify (f : Sketch → Sketch) : Cmd unit := λ s, (tt, f s).

Definition exec {A : Type} (m : Cmd A) (s : Sketch) : Sketch := snd (m s).

Declare Scope cmd_scope.
Delimit Scope cmd_scope with cmd.
Notation "'do' x <- m ; k" := (bind m (λ x, k))
  (at level 20, x name, m at level 100, k at level 200) : cmd_scope.
Notation "m ;; k" := (bind m (λ _, k))
  (at level 100, k at level 200, right associativity) : cmd_scope.
Local Open Scope cmd_scope.

Definition when (b : bool) (m : Cmd unit) : Cmd unit :=
  if b then m else ret tt.

(** [for (int i = lo; i < lo + count; i++) body(i);] *)
Fixpoint for_ (lo count : nat) (body : nat → Cmd unit) : Cmd unit :=
  match count with
  | O => ret tt
  | S c => body lo ;; for_ (S lo) c body
  end.

Definition emit (e : Event) : Cmd unit :=
  modify (λ s, with_trace (trace s ++ [e]) s).

(** [random(howbig)] on the global generator. *)
Definition random (howbig : Z) : Cmd Z :=
  λ s, let (v, r) := random_draw howbig (rng s) in (v, with_rng r s).

(** [population[i].note[j] = v;] and its three siblings; the right-hand
    side is a [long] stored into a [byte]. *)
Definition store_note (j : nat) (v : Z) (g : Genome) : Genome :=
  mkGenome (<[j := to_byte v]> (note g)) (octave g) (waveform g) (gate g).
Definition store_octave (j : nat) (v : Z) (g : Genome) : Genome :=
  mkGenome (note g) (<[j := to_byte v]> (octave g)) (waveform g) (gate g).
Definition store_waveform (j : nat) (v : Z) (g : Genome) : Genome :=
  mkGenome (note g) (octave g) (<[j := to_byte v]> (waveform g)) (gate g).
Definition store_gate (j : nat) (v : Z) (g : Genome) : Genome :=
  mkGenome (note g) (octave g) (waveform g) (<[j := to_byte v]> (gate g)).

Definition assign (field : nat → Z → Genome → Genome) (i j : nat) (v : Z)
  : Cmd unit :=
  modify (λ s, with_population (alter (field j v) i (population s)) s).

(** ** Population operations *)

Definition initGene (i j : nat) : Cmd unit :=
  do v <- random NUM_NOTES; assign store_note i j v ;;
  do v <- random 4; assign store_octave i j v ;;
  do v <- random 4; assign store_waveform i j v ;;
  do v <- random 2; assign store_gate i j v.

Definition initPopulation : Cmd unit :=
  emit CallInit ;;
  for_ 0 POP_SIZE (λ i, for_ 0 NUM_STEPS (λ j, initGene i j)).

(** [const float MUT_RATE = 0.01;] *)
Definition MUT_RATE : Q := (1 # 100)%Q.

(** The test [random(100) < rate * 100]: an integer draw against the
    product.  The product is taken exactly.  For the rates used below the
    single-precision product decides the test the same way: 0 * 100 and
    1 * 100 are exact, and the product for 0.01 lies in (0, 1], so that
    the test succeeds on a draw of 0 only. *)
Definition below_rate (draw : Z) (rate : Q) : bool :=
  negb (Qle_bool (rate * 100)%Q (inject_Z draw)).

Definition mutateField (rate : Q) (howbig : Z)
    (field : nat → Z → Genome → Genome) (i j : nat) : Cmd unit :=
  do d <- random 100;
  when (below_rate d rate) (do v <- random howbig; assign field i j v).

Definition mutateGene (rate : Q) (i j : nat) : Cmd unit :=
  mutateField rate NUM_NOTES store_note i j ;;
  mutateField rate 4 store_octave i j ;;
  mutateField rate 4 store_waveform i j ;;
  mutateField rate 2 store_gate i j.

(** [mutatePopulation] with the rate constant as a parameter. *)
Definition mutatePopulation_at (rate : Q) : Cmd unit :=
  emit CallMutate ;;
  for_ 0 POP_SIZE (λ i, for_ 0 NUM_STEPS (λ j, mutateGene rate i j)).

Definition mutatePopulation : Cmd unit := mutatePopulation_at MUT_RATE.

Definition evaluateMember (i : nat) : Cmd unit :=
  do s <- get;
  let score := evaluateGenome (population s !!! i) in
  when (best_score s <? score)
    (modify (with_best_score score) ;;
     modify (with_best_genome (population s !!! i))).

Definition evaluatePopulation : Cmd unit :=
  emit CallEvaluate ;;
  modify (with_best_score (-9999)) ;;
  for_ 0 POP_SIZE evaluateMember.

(** ** The sequencer *)

(** What one pass of [loop()] observes of the outside world: the clock,
    the analog tempo pin, and the two button pins as [updateControl]
    samples them when the audio library runs it from [audioHook()]
    ([true] = read as LOW, i.e. pressed; [false] also stands for a pass
    in which [updateControl] did not run). *)
Record Inputs : Type := mkInputs {
  millis : Z;
  analog_bpm : Z;
  like_low : bool;
  dislike_low : bool
}.

Definition updateControl (inp : Inputs) : Cmd unit :=
  when (like_low inp) (modify (with_like_pressed true)) ;;
  when (dislike_low inp) (modify (with_dislike_pressed true)).

(** [playStep]: the four bytes of the current step go to the audio side.
    The frequency conversion [mtof] and the oscillators are outside this
    model. *)
Definition playStep : Cmd unit :=
  do s <- get;
  let k := Z.to_nat (current_step s) in
  emit (PlayNote (note (best_genome s) !!! k) (octave (best_genome s) !!! k)
          (waveform (best_genome s) !!! k) (gate (best_genome s) !!! k)).

(** [analogRead(BPM_PIN) / 4 + 60], stored in the [int current_bpm]. *)
Definition bpm_of_reading (reading : Z) : Z := to_int (Z.quot reading 4 + 60).

(** [60000 / current_bpm / 4], stored in the [unsigned long step_time]. *)
Definition step_time_of_bpm (bpm : Z) : Z :=
  to_ulong (Z.quot (Z.quot 60000 bpm) 4).

(** The branch taken when [current_step] reaches [NUM_STEPS]. *)
Definition sequence_end : Cmd unit :=
  modify (with_current_step 0) ;;
  do s <- get;
  if like_pressed s then
    modify (with_like_pressed false) ;;
    mutatePopulation ;;
    evaluatePopulation
  else if dislike_pressed s then
    modify (with_dislike_pressed false) ;;
    initPopulation ;;
    evaluatePopulation
  else ret tt.

(** The body of [loop()] once the step interval has elapsed. *)
Definition tick (inp : Inputs) : Cmd unit :=
  modify (with_last_time (to_ulong (millis inp))) ;;
  playStep ;;
  modify (λ s, with_current_step (to_int (current_step s + 1)) s) ;;
  do s <- get;
  when (current_step s =? Z.of_nat NUM_STEPS) sequence_end ;;
  modify (λ s, with_beat_on (negb (beat_on s)) s) ;;
  do s <- get;
  emit (BeatPin (beat_on s)) ;;
  modify (with_current_bpm (bpm_of_reading (analog_bpm inp))) ;;
  modify (λ s, with_step_time (step_time_of_bpm (current_bpm s)) s).

Definition loop (inp : Inputs) : Cmd unit :=
  updateControl inp ;;
  do s <- get;
  when (step_time s <=? to_ulong (to_ulong (millis inp) - last_time s))
    (tick inp).

(** Successive passes of [loop()], one per element of the input list. *)
Fixpoint run (inputs : list Inputs) : Cmd unit :=
  match inputs with
  | [] => ret tt
  | inp :: rest => loop inp ;; run rest
  end.

(** ** Value domains *)

(** An array of [NUM_STEPS] entries, each in [[0, hi)]. *)
Definition values_in (hi : Z) (l : list Z) : Prop :=
  length l = NUM_STEPS ∧ Forall (λ v, 0 ≤ v < hi) l.

Definition genome_in_domain (g : Genome) : Prop :=
  values_in 12 (note g) ∧ values_in 4 (octave g) ∧
  values_in 4 (waveform g) ∧ values_in 2 (gate g).

Definition population_in_domain (p : list Genome) : Prop :=
  length p = POP_SIZE ∧ Forall genome_in_domain p.

(** The shape the C declarations give regardless of content:
    [Genome population[POP_SIZE]] with four [byte [NUM_STEPS]] members. *)
Definition genome_shape (g : Genome) : Prop :=
  values_in 256 (note g) ∧ values_in 256 (octave g) ∧
  values_in 256 (waveform g) ∧ values_in 256 (gate g).

Definition population_shape (p : list Genome) : Prop :=
  length p = POP_SIZE ∧ Forall genome_shape p.

Global Instance values_in_dec hi l : Decision (values_in hi l).
Proof. unfold values_in. apply _. Defined.
Global Instance genome_in_domain_dec g : Decision (genome_in_domain g).
Proof. unfold genome_in_domain. apply _. Defined.
Global Instance population_in_domain_dec p : Decision (population_in_domain p).
Proof. unfold population_in_domain. apply _. Defined.
Global Instance genome_shape_dec g : Decision (genome_shape g).
Proof. unfold genome_shape. apply _. Defined.
Global Instance population_shape_dec p : Decision (population_shape p).
Proof. unfold population_shape. apply _. Defined.

(** ** The scoring rule in the words of the design document (section 4.2) *)

Module Reference.

(** "static 7x7 matrix ... cell = integer preference": the cells are the
    signed numbers written in the table. *)
Definition table : list (list Z) := JAZZ_TABLE_init.

(** (major, C), (minor, A), (dominant, G), (minor, D). *)
Definition progression : list (nat * Z) := [ (0%nat, 0); (1%nat, 9); (2%nat, 7); (1%nat, 2) ].

Definition cell (chord_type : nat) (scale_degree : Z) : option Z :=
  row ← table !! chord_type; row !! Z.to_nat scale_degree.

Definition pitch (g : Genome) (i : nat) : Z :=
  note g !!! i + 12 * octave g !!! i.

(** Items 1 to 6 for one step index; [None] where the matrix has no cell. *)
Definition step_score (g : Genome) (i : nat) : option Z :=
  '(chord_type, root) ← progression !! (i / (64 / 4))%nat;
  let scale_degree := (note g !!! i - root + 12) mod 12 in
  harmony ← cell chord_type scale_degree;
  let centred :=
    harmony - Z.abs (octave g !!! i - 1) * 2 - Z.abs (waveform g !!! i - 1) * 2 in
  if decide (i = 0%nat) then Some centred
  else
    let interval := pitch g i - pitch g (i - 1) in
    let repeat_penalty :=
      if decide (interval = 0 ∧ gate g !!! i = 1 ∧ gate g !!! (i - 1)%nat = 1)
      then 5 else 0 in
    Some (centred - Z.abs interval - repeat_penalty).

Fixpoint sum_steps (g : Genome) (steps : list nat) : option Z :=
  match steps with
  | [] => Some 0
  | i :: rest => a ← step_score g i; b ← sum_steps g rest; Some (a + b)
  end.

Definition score (g : Genome) : option Z := sum_steps g (seq 0 64).

End Reference.

(** ** Sample genomes *)

(** An array that is constant on each of the four 16-step segments. *)
Definition by_segment (a b c d : Z) : list Z :=
  replicate 16 a ++ replicate 16 b ++ replicate 16 c ++ replicate 16 d.

Fixpoint alternating (n : nat) (v : Z) : list Z :=
  match n with
  | O => []
  | S n' => v :: alternating n' (1 - v)
  end.

(** The regression vector of the design document: note 0, octave 1,
    waveform 1 at every step, gate alternating and starting on. *)
Definition regression_genome : Genome :=
  mkGenome (replicate 64 0) (replicate 64 1) (replicate 64 1) (alternating 64 1).

(** The chord root in segments 0, 1 and 3 and the fourth above the root
    (scale degree 5) under the dominant chord of segment 2; centred
    octave and waveform, gates off. *)
Definition dominant_fourth_genome : Genome :=
  mkGenome (by_segment 0 9 0 2) (replicate 64 1) (replicate 64 1) (replicate 64 0).

(** The chord root throughout. *)
Definition roots_genome : Genome :=
  mkGenome (by_segment 0 9 7 2) (replicate 64 1) (replicate 64 1) (replicate 64 0).

(** ** The score in unbounded arithmetic *)

(** The change one step makes to the score, in unbounded arithmetic. *)
Definition interval_at (g : Genome) (i : nat) : Z :=
  note g !!! i + octave g !!! i * NUM_NOTES
  - note g !!! (i - 1)%nat - octave g !!! (i - 1)%nat * NUM_NOTES.

Definition step_delta (g : Genome) (i : nat) : Z :=
  JAZZ_TABLE_read (chord_type_at i) (scale_degree_at g i)
  - Z.abs (octave g !!! i - 1) * 2
  - Z.abs (waveform g !!! i - 1) * 2
  - (if (0 <? i)%nat then
       Z.abs (interval_at g i)
       + (if (interval_at g i =? 0) && (gate g !!! i =? 1)
             && (gate g !!! (i - 1)%nat =? 1) then 5 else 0)
     else 0).

Fixpoint sum_deltas (g : Genome) (lo count : nat) : Z :=
  match count with
  | O => 0
  | S c => step_delta g lo + sum_deltas g (S lo) c
  end.

(** ** Genes and frames *)

(** The four bytes of step [j]. *)
Definition gene_at (g : Genome) (j : nat) : Z * Z * Z * Z :=
  (note g !!! j, octave g !!! j, waveform g !!! j, gate g !!! j).

(** All four members of step [j] written, in the order of the sketch. *)
Definition write_gene (j : nat) (d : Z * Z * Z * Z) (g : Genome) : Genome :=
  let '(a, b, c, e) := d in
  store_gate j e (store_waveform j c (store_octave j b (store_note j a g))).

Definition lengths_ok (g : Genome) : Prop :=
  length (note g) = NUM_STEPS ∧ length (octave g) = NUM_STEPS ∧
  length (waveform g) = NUM_STEPS ∧ length (gate g) = NUM_STEPS.

Definition gene_in_domain (d : Z * Z * Z * Z) : Prop :=
  let '(a, b, c, e) := d in
  0 ≤ a < 12 ∧ 0 ≤ b < 4 ∧ 0 ≤ c < 4 ∧ 0 ≤ e < 2.

(** Everything but the population and the generator. *)
Definition frame_of (s : Sketch) :=
  (best_genome s, best_score s, current_step s, current_bpm s, step_time s,
   last_time s, beat_on s, like_pressed s, dislike_pressed s, trace s).

Definition to_bytes (d : Z * Z * Z * Z) : Z * Z * Z * Z :=
  let '(a, b, c, e) := d in (to_byte a, to_byte b, to_byte c, to_byte e).

(** The generator after [n] more calls. *)
Definition advance (n : N) (r : Random) : Random :=
  mkRandom (raw r) (n + cursor r)%N.

(** The draws [initGene] makes when the cursor is at [k]. *)
Definition init_draws (r : N → N) (k : N) : Z * Z * Z * Z :=
  let R := mkRandom r 0 in
  (random_at R NUM_NOTES k, random_at R 4 (1 + k)%N, random_at R 4 (2 + k)%N,
   random_at R 2 (3 + k)%N).

(** The value draws [mutateGene] makes at rate 1 when the cursor is at
    [k]: every second call, the others being the rate tests. *)
Definition mutation_draws (r : N → N) (k : N) : Z * Z * Z * Z :=
  let R := mkRandom r 0 in
  (random_at R NUM_NOTES (1 + k)%N, random_at R 4 (3 + k)%N,
   random_at R 4 (5 + k)%N, random_at R 2 (7 + k)%N).

(** ** Selection *)

(** [g] is the first member of [p], in population order, whose score is
    the maximum [m] of the scores of the members of [p]. *)
Definition first_maximum (p : list Genome) (g : Genome) (m : Z) : Prop :=
  ∃ i, p !! i = Some g ∧ evaluateGenome g = m
     ∧ (∀ j h, p !! j = Some h → evaluateGenome h ≤ m)
     ∧ (∀ j h, (j < i)%nat → p !! j = Some h → evaluateGenome h < m).

(** The sequencer and output side of the globals. *)
Definition control_of (s : Sketch) :=
  (current_step s, current_bpm s, step_time s, last_time s, beat_on s,
   like_pressed s, dislike_pressed s, trace s).

(** ** Observing transitions *)

Definition is_call (e : Event) : bool :=
  match e with
  | CallInit | CallMutate | CallEvaluate => true
  | PlayNote _ _ _ _ | BeatPin _ => false
  end.

(** The events a command adds to the trace when run from [s]. *)
Definition emitted (m : Cmd unit) (s : Sketch) : list Event :=
  drop (length (trace s)) (trace (exec m s)).

(** The population-routine calls among them.  The reinforce transition
    shows as [[CallMutate; CallEvaluate]], the reset transition as
    [[CallInit; CallEvaluate]]. *)
Definition calls_of (m : Cmd unit) (s : Sketch) : list Event :=
  List.filter is_call (emitted m s).

Definition reinforce : list Event := [CallMutate; CallEvaluate].
Definition reset : list Event := [CallInit; CallEvaluate].

(** ** The sequencer side of one tick, as a function of the state before *)

(** The tick started from [s] is the one that ends a traversal. *)
Definition wraps (s : Sketch) : bool :=
  to_int (current_step s + 1) =? Z.of_nat NUM_STEPS.

Definition played (s : Sketch) : Event :=
  let k := Z.to_nat (current_step s) in
  PlayNote (note (best_genome s) !!! k) (octave (best_genome s) !!! k)
    (waveform (best_genome s) !!! k) (gate (best_genome s) !!! k).

(** ** Sample states *)

(** A fixed sequence of raw generator results. *)
Definition sample_raw (k : N) : N := (7 * k + 3)%N.

Definition zero_genome : Genome :=
  mkGenome (replicate 64 0) (replicate 64 0) (replicate 64 0) (replicate 64 0).

(** The globals as the C runtime zero-initialises them, with the sample
    generator. *)
Definition power_on : Sketch :=
  mkSketch (replicate 100 zero_genome) zero_genome 0 0 0 0 0 false false false
    (mkRandom sample_raw 0) [].

(** A generator under which exactly the octave tests of [mutatePopulation]
    succeed and every octave drawn is 0: five calls per step, of which
    the second (the octave test) and the third (the octave value) return
    0 and the others return 1. *)
Definition octave_only_raw (k : N) : N :=
  match (k mod 5)%N with
  | 1%N | 2%N => 0%N
  | _ => 1%N
  end.

(** A population of 100 copies of [roots_genome], not yet evaluated. *)
Definition champions : Sketch :=
  mkSketch (replicate 100 roots_genome) zero_genome 0 0 60 250 0 false false
    false (mkRandom octave_only_raw 0) [].

(** The last step of a traversal with both buttons latched. *)
Definition both_latched : Sketch :=
  mkSketch (replicate 100 roots_genome) roots_genome 624 63 60 250 0 false
    true true (mkRandom sample_raw 0) [].

(** The same with no button latched. *)
Definition none_latched : Sketch :=
  mkSketch (replicate 100 roots_genome) roots_genome 624 63 60 250 0 false
    false false (mkRandom sample_raw 0) [].

(** The same with only the dislike button latched. *)
Definition dislike_latched : Sketch :=
  mkSketch (replicate 100 roots_genome) roots_genome 624 63 60 250 0 false
    false true (mkRandom sample_raw 0) [].

(** Passes of [loop()] 250 ms apart with the tempo pin at 0 and no button
    pressed: pass [k] happens at [250 * k] ms. *)
Definition quiet_pass (k : nat) : Inputs :=
  mkInputs (250 * Z.of_nat k) 0 false false.

Definition quiet_passes (first count : nat) : list Inputs :=
  map quiet_pass (seq first count).

(** The power-on state after [initPopulation] with the sample generator. *)
Definition seeded : Sketch := exec initPopulation power_on.

(** ** Start-up and the rest of the control path *)

(** [setup()].  The calls into the audio library and the pin modes have no
    effect on the globals; [seeded] is the generator as
    [randomSeed(analogRead(0))] leaves it, and [inp] supplies the reading
    of the tempo pin and the clock. *)
Definition setup (seeded : Random) (inp : Inputs) : Cmd unit :=
  modify (with_rng seeded) ;;
  initPopulation ;;
  evaluatePopulation ;;
  modify (with_current_step 0) ;;
  modify (with_current_bpm (bpm_of_reading (analog_bpm inp))) ;;
  modify (λ s, with_step_time (step_time_of_bpm (current_bpm s)) s) ;;
  modify (with_last_time (to_ulong (millis inp))) ;;
  modify (with_beat_on false) ;;
  modify (with_like_pressed false) ;;
  modify (with_dislike_pressed false).

(** The test [current_time - last_time >= step_time] of [loop()]. *)
Definition due (inp : Inputs) (s : Sketch) : bool :=
  step_time s <=? to_ulong (to_ulong (millis inp) - last_time s).

(** Every pass of a run finds its step interval elapsed. *)
Fixpoint all_due (inputs : list Inputs) (s : Sketch) : bool :=
  match inputs with
  | [] => true
  | inp :: rest => due inp s && all_due rest (exec (loop inp) s)
  end.

Definition is_note (e : Event) : bool :=
  match e with
  | PlayNote _ _ _ _ => true
  | _ => false
  end.

(** The notes a command hands to the audio side when run from [s]. *)
Definition notes_of (m : Cmd unit) (s : Sketch) : list Event :=
  List.filter is_note (emitted m s).

(** Step [k] of a genome as [playStep] hands it over. *)
Definition note_event (g : Genome) (k : nat) : Event :=
  PlayNote (note g !!! k) (octave g !!! k) (waveform g !!! k) (gate g !!! k).

(** The argument [note + octave * NUM_NOTES] of [mtof], an [int] passed
    to a [byte] parameter. *)
Definition midi_number (note_ octave_ : Z) : Z :=
  to_byte (to_int (note_ + octave_ * NUM_NOTES)).

(** The state the sequencer relies on: an in-domain population, a best
    genome and score that are the first maximum of that population, and a
    step index inside the genome. *)
Definition healthy (s : Sketch) : Prop :=
  population_in_domain (population s)
  ∧ first_maximum (population s) (best_genome s) (best_score s)
  ∧ 0 ≤ current_step s < Z.of_nat NUM_STEPS.

(** A generator whose results are never a multiple of 100. *)
Definition never_zero_raw (k : N) : N := (100 * k + 1)%N.

(** The regression vector with every gate on, and with every gate off. *)
Definition gates_on_genome : Genome :=
  mkGenome (replicate 64 0) (replicate 64 1) (replicate 64 1) (replicate 64 1).

Definition gates_off_genome : Genome :=
  mkGenome (replicate 64 0) (replicate 64 1) (replicate 64 1) (replicate 64 0).

(** The power-on state after [setup()] with the sample generator, the
    tempo pin at 0 and the clock at 0. *)
Definition started : Sketch :=
  exec (setup (mkRandom sample_raw 0) (mkInputs 0 0 false false)) power_on.

(** A pass 250 ms after the previous one in which both buttons are held. *)
Definition pressed_pass (k : nat) : Inputs :=
  mkInputs (250 * Z.of_nat k) 0 true true.

(** The population side of the globals. *)
Definition data_of (s : Sketch) :=
  (population s, best_genome s, best_score s, rng s).

(** A traversal of 64 due passes in which both buttons are held during
    the tenth pass only. *)
Definition traversal_with_press : list Inputs :=
  quiet_passes 1 9 ++ [pressed_pass 10] ++ quiet_passes 11 54.

(** A byte after mutation: the old byte, or a value of the field's
    domain. *)
Definition kept_or_drawn (hi old new : Z) : Prop := new = old ∨ 0 ≤ new < hi.

Definition mutation_of (g g' : Genome) (j : nat) : Prop :=
  kept_or_drawn 12 (note g !!! j) (note g' !!! j)
  ∧ kept_or_drawn 4 (octave g !!! j) (octave g' !!! j)
  ∧ kept_or_drawn 4 (waveform g !!! j) (waveform g' !!! j)
  ∧ kept_or_drawn 2 (gate g !!! j) (gate g' !!! j).

(** A genome outside the value domains (octave byte 200 at every step),
    and a state whose population holds 100 copies of it. *)
Definition shrill_genome : Genome :=
  mkGenome (replicate 64 0) (replicate 64 200) (replicate 64 1) (replicate 64 0).

Definition shrill : Sketch :=
  with_population (replicate 100 shrill_genome) both_latched.

(** ** Mutation in the words of the design document (section 4.1)

    "For every field of every gene of every genome, independently with
    probability [rate], replace that single field with a fresh uniform
    draw from its domain."  The rule is written on the values of the
    genes, field by field, with the generator's results consumed in the
    order genome, step, field. *)

Module MutationRule.

(** One trial on one field: a result of [random(100)] below [rate * 100]
    replaces the field by the next result, drawn from the field's domain;
    otherwise the field keeps its value. *)
Definition mutate_value (rate : Q) (howbig old : Z) (r : Random) : Z * Random :=
  if below_rate (random_at r 100 (cursor r)) rate
  then (random_at r howbig (1 + cursor r)%N, advance 2 r)
  else (old, advance 1 r).

(** The four fields of one gene, each with a trial of its own. *)
Definition mutate_gene (rate : Q) (d : Z * Z * Z * Z) (r : Random)
  : (Z * Z * Z * Z) * Random :=
  let '(a, b, c, e) := d in
  let (a', r) := mutate_value rate 12 a r in
  let (b', r) := mutate_value rate 4 b r in
  let (c', r) := mutate_value rate 4 c r in
  let (e', r) := mutate_value rate 2 e r in
  ((a', b', c', e'), r).

(** Gene number [k] of a population, counted genome by genome. *)
Definition gene_number (p : list Genome) (k : nat) : Z * Z * Z * Z :=
  gene_at (p !!! (k / NUM_STEPS)%nat) (k mod NUM_STEPS)%nat.

(** The generator when the rule reaches gene number [k]. *)
Fixpoint generator_at (rate : Q) (p : list Genome) (r0 : Random) (k : nat)
  : Random :=
  match k with
  | O => r0
  | S m => snd (mutate_gene rate (gene_number p m) (generator_at rate p r0 m))
  end.

(** Gene number [k] after the rule has been applied to the population. *)
Definition mutated_gene (rate : Q) (p : list Genome) (r0 : Random) (k : nat)
  : Z * Z * Z * Z :=
  fst (mutate_gene rate (gene_number p k) (generator_at rate p r0 k)).

End MutationRule.

(** ** Scoring with the undefined operations made explicit

    [evaluateGenome] once more, statement by statement, with every signed
    [int] operation checked on its own ([None] when the exact result does
    not fit a 16-bit [int]) and the table access taken as a parameter
    that may fail. *)

Module Strict.

Definition int_exact (z : Z) : option Z :=
  if (-32768 <=? z) && (z <=? 32767) then Some z else None.

(** [#define abs(x) ((x)>0?(x):-(x))]. *)
Definition c_abs (x : Z) : option Z :=
  if 0 <? x then Some x else int_exact (- x).

Definition evaluateStep (read : Z → Z → option Z) (genome : Genome) (i : nat)
    (score : Z) : option Z :=
  let note_ := note genome !!! i in
  let octave_ := octave genome !!! i in
  let waveform_ := waveform genome !!! i in
  let gate_ := gate genome !!! i in
  let chord_type := chord_type_at i in
  let chord_root := chord_root_at i in
  t ← int_exact (note_ - chord_root);
  t ← int_exact (t + NUM_NOTES);
  let scale_degree := to_byte (Z.rem t NUM_NOTES) in
  cell ← read chord_type scale_degree;
  score ← int_exact (score + cell);
  d ← int_exact (octave_ - 1);
  a ← c_abs d;
  p ← int_exact (a * 2);
  score ← int_exact (score - p);
  d ← int_exact (waveform_ - 1);
  a ← c_abs d;
  p ← int_exact (a * 2);
  score ← int_exact (score - p);
  if (0 <? i)%nat then
    let prev_note := note genome !!! (i - 1)%nat in
    let prev_octave := octave genome !!! (i - 1)%nat in
    let prev_gate := gate genome !!! (i - 1)%nat in
    t1 ← int_exact (octave_ * NUM_NOTES);
    t2 ← int_exact (note_ + t1);
    t3 ← int_exact (t2 - prev_note);
    t4 ← int_exact (prev_octave * NUM_NOTES);
    interval ← int_exact (t3 - t4);
    a ← c_abs interval;
    score ← int_exact (score - a);
    if (interval =? 0) && (gate_ =? 1) && (prev_gate =? 1)
    then int_exact (score - 5)
    else Some score
  else Some score.

Fixpoint for_loop (lo count : nat) (body : nat → Z → option Z) (s : Z)
  : option Z :=
  match count with
  | O => Some s
  | S c => s' ← body lo s; for_loop (S lo) c body s'
  end.

Definition evaluateGenome (read : Z → Z → option Z) (genome : Genome)
  : option Z :=
  for_loop 0 NUM_STEPS (evaluateStep read genome) 0.

End Strict.

(** The table access as the object code performs it, which always yields
    a byte. *)
Definition flat_read (chord_type scale_degree : Z) : option Z :=
  Some (JAZZ_TABLE_read chord_type scale_degree).

(** ** Mutation of one genome

    [mutateField] and [mutateGene] as functions of the genome they write
    to and of the generator, the rest of the state left out. *)

Definition mutateField_on (rate : Q) (howbig : Z)
    (field : nat → Z → Genome → Genome) (j : nat) (g : Genome) (r : Random)
  : Genome * Random :=
  if below_rate (random_at r 100 (cursor r)) rate
  then (field j (random_at r howbig (1 + cursor r)%N) g, advance 2 r)
  else (g, advance 1 r).

Definition mutateGene_on (rate : Q) (j : nat) (g : Genome) (r : Random)
  : Genome * Random :=
  let (g, r) := mutateField_on rate NUM_NOTES store_note j g r in
  let (g, r) := mutateField_on rate 4 store_octave j g r in
  let (g, r) := mutateField_on rate 4 store_waveform j g r in
  mutateField_on rate 2 store_gate j g r.

(** The results of [random(100)], out of the 100 possible ones, on which
    the rate test succeeds. *)
Definition passing_draws (rate : Q) : list Z :=
  List.filter (λ d, below_rate d rate) (seqZ 0 100).

(** * Properties *)

(** ** Machine integers and loops *)

Lemma to_byte_small z : 0 ≤ z < 256 → to_byte z = z.
Proof. intros H. unfold to_byte. by apply Z.mod_small. Qed.

Lemma to_byte_range z : 0 ≤ to_byte z < 256.
Proof. unfold to_byte. apply Z.mod_pos_bound. lia. Qed.

Lemma to_int_small z : -32768 ≤ z ≤ 32767 → to_int z = z.
Proof. intros H. unfold to_int. rewrite Z.mod_small; lia. Qed.

Lemma c_abs_small z : -32767 ≤ z ≤ 32767 → c_abs z = Z.abs z.
Proof.
  intros H. unfold c_abs. destruct (Z.ltb_spec 0 z); [lia|].
  rewrite to_int_small; lia.
Qed.

Lemma for_loop_invariant {S : Type} (P : nat → S → Prop) body count :
  ∀ lo s,
    P lo s →
    (∀ k t, (lo ≤ k < lo + count)%nat → P k t → P (Datatypes.S k) (body k t)) →
    P (lo + count)%nat (for_loop lo count body s).
Proof.
  induction count as [|c IH]; intros lo s H0 Hstep; simpl.
  - by rewrite Nat.add_0_r.
  - replace (lo + Datatypes.S c)%nat with (Datatypes.S lo + c)%nat by lia.
    apply IH.
    + apply Hstep; [lia | done].
    + intros k t Hk. apply Hstep. lia.
Qed.

(** ** Reading in-domain genomes *)

Lemma values_in_lookup hi l j :
  values_in hi l → (j < NUM_STEPS)%nat → 0 ≤ l !!! j < hi.
Proof.
  intros [Hlen Hall] Hj.
  apply (Forall_lookup_total_1 (λ v, 0 ≤ v < hi) l j Hall). lia.
Qed.

Lemma JAZZ_TABLE_read_range c d : 0 ≤ JAZZ_TABLE_read c d ≤ 251.
Proof.
  unfold JAZZ_TABLE_read.
  assert (Hall : Forall (λ v, 0 ≤ v ≤ 251) (concat JAZZ_TABLE)).
  { apply (bool_decide_unpack _). by vm_compute. }
  generalize (Z.to_nat (7 * c + d)). intros n.
  rewrite list_lookup_total_alt.
  destruct (concat JAZZ_TABLE !! n) as [v|] eqn:Hn; simpl.
  - by apply (Forall_lookup_1 _ _ _ _ Hall Hn).
  - by vm_compute.
Qed.

(** Whenever the two-dimensional access is within the table, the flat
    read returns the same byte. *)
Lemma JAZZ_TABLE_read_at c d v :
  0 ≤ c → 0 ≤ d → JAZZ_TABLE_at c d = Some v → JAZZ_TABLE_read c d = v.
Proof.
  intros Hc Hd. unfold JAZZ_TABLE_at, JAZZ_TABLE_read.
  destruct (Z.to_nat c) as [|[|[|[|[|[|[|r]]]]]]] eqn:Er;
  destruct (Z.to_nat d) as [|[|[|[|[|[|[|k]]]]]]] eqn:Ed;
    try (vm_compute; discriminate);
    replace (Z.to_nat (7 * c + d)) with (7 * Z.to_nat c + Z.to_nat d)%nat by lia;
    rewrite Er, Ed; vm_compute; congruence.
Qed.

(** The chord type of every step is a row of the table, and the scale
    degree is a chromatic degree. *)
Lemma chord_type_at_range i : (i < NUM_STEPS)%nat → 0 ≤ chord_type_at i < 3.
Proof.
  intros Hi. unfold chord_type_at, NUM_STEPS in *.
  assert (Hq : (i / (64 / 4) < 4)%nat) by (apply Nat.Div0.div_lt_upper_bound; simpl; lia).
  destruct (i / (64 / 4))%nat as [|[|[|[|q]]]]; simpl; lia.
Qed.

Lemma chord_root_at_range i : (i < NUM_STEPS)%nat → 0 ≤ chord_root_at i < 12.
Proof.
  intros Hi. unfold chord_root_at, NUM_STEPS in *.
  assert (Hq : (i / (64 / 4) < 4)%nat) by (apply Nat.Div0.div_lt_upper_bound; simpl; lia).
  destruct (i / (64 / 4))%nat as [|[|[|[|q]]]]; simpl; lia.
Qed.

Lemma scale_degree_at_range g i :
  genome_in_domain g → (i < NUM_STEPS)%nat → 0 ≤ scale_degree_at g i < 12.
Proof.
  intros (Hn & _) Hi. unfold scale_degree_at, NUM_NOTES.
  pose proof (values_in_lookup _ _ _ Hn Hi) as Hv.
  pose proof (chord_root_at_range i Hi) as Hr.
  assert (0 ≤ Z.rem (note g !!! i - chord_root_at i + 12) 12 < 12)
    by (apply Z.rem_bound_pos; lia).
  rewrite to_byte_small; lia.
Qed.

(** ** The score without wrap-around *)

Lemma step_delta_range g i :
  genome_in_domain g → (i < NUM_STEPS)%nat → -60 ≤ step_delta g i ≤ 251.
Proof.
  intros Hg Hi. pose proof Hg as (Hn & Ho & Hw & Hga).
  assert (Hi' : (i - 1 < NUM_STEPS)%nat) by lia.
  pose proof (values_in_lookup _ _ _ Hn Hi).
  pose proof (values_in_lookup _ _ _ Ho Hi).
  pose proof (values_in_lookup _ _ _ Hw Hi).
  pose proof (values_in_lookup _ _ _ Hn Hi').
  pose proof (values_in_lookup _ _ _ Ho Hi').
  pose proof (JAZZ_TABLE_read_range (chord_type_at i) (scale_degree_at g i)).
  unfold step_delta, interval_at, NUM_NOTES.
  destruct (0 <? i)%nat;
    [destruct (_ && _)|]; lia.
Qed.

Lemma evaluateStep_exact g i score :
  genome_in_domain g → (i < NUM_STEPS)%nat →
  -60 * Z.of_nat i ≤ score ≤ 251 * Z.of_nat i →
  evaluateStep g i score = score + step_delta g i.
Proof.
  intros Hg Hi Hs. pose proof Hg as (Hn & Ho & Hw & Hga).
  assert (Hi' : (i - 1 < NUM_STEPS)%nat) by lia.
  pose proof (values_in_lookup _ _ _ Hn Hi).
  pose proof (values_in_lookup _ _ _ Ho Hi).
  pose proof (values_in_lookup _ _ _ Hw Hi).
  pose proof (values_in_lookup _ _ _ Hn Hi').
  pose proof (values_in_lookup _ _ _ Ho Hi').
  pose proof (JAZZ_TABLE_read_range (chord_type_at i) (scale_degree_at g i)).
  unfold NUM_STEPS in Hi.
  unfold evaluateStep, step_delta, interval_at, NUM_NOTES.
  rewrite !(c_abs_small (_ - 1)) by lia.
  rewrite (to_int_small (score + _)) by lia.
  rewrite (to_int_small (score + _ - _)) by lia.
  rewrite (to_int_small (score + _ - _ - _)) by lia.
  destruct (0 <? i)%nat; [|lia].
  rewrite (to_int_small (_ + _ * 12 - _ - _ * 12)) by lia.
  rewrite c_abs_small by lia.
  rewrite (to_int_small (score + _ - _ - _ - _)) by lia.
  destruct (_ && _); [|lia].
  rewrite to_int_small by lia. lia.
Qed.

Lemma sum_deltas_snoc g count :
  ∀ lo, sum_deltas g lo (S count)
        = sum_deltas g lo count + step_delta g (lo + count)%nat.
Proof.
  induction count as [|c IH]; intros lo.
  - simpl. rewrite Nat.add_0_r. lia.
  - change (sum_deltas g lo (S (S c)))
      with (step_delta g lo + sum_deltas g (S lo) (S c)).
    rewrite IH. simpl. replace (S (lo + c)) with (lo + S c)%nat by lia. lia.
Qed.

(** On an in-domain genome no [int] operation of [evaluateGenome] wraps:
    the result is the plain sum of the per-step changes, each in
    [[-60, 251]]. *)
Lemma evaluateGenome_prefix g n :
  genome_in_domain g → (n ≤ NUM_STEPS)%nat →
  for_loop 0 n (evaluateStep g) 0 = sum_deltas g 0 n
  ∧ -60 * Z.of_nat n ≤ sum_deltas g 0 n ≤ 251 * Z.of_nat n.
Proof.
  intros Hg. induction n as [|n IH]; intros Hn.
  - simpl. lia.
  - destruct IH as [IH1 IH2]; [lia|].
    assert (Hlt : (n < NUM_STEPS)%nat) by lia.
    pose proof (step_delta_range g n Hg Hlt) as Hd.
    assert (Hsplit : ∀ (f : nat → Z → Z) k lo z,
      for_loop lo (S k) f z = f (lo + k)%nat (for_loop lo k f z)).
    { intros f k. induction k as [|k IHk]; intros lo z.
      - simpl. by rewrite Nat.add_0_r.
      - change (for_loop lo (S (S k)) f z) with (for_loop (S lo) (S k) f (f lo z)).
        rewrite IHk. simpl. by replace (S (lo + k)) with (lo + S k)%nat by lia. }
    rewrite Hsplit, IH1. simpl Nat.add.
    rewrite evaluateStep_exact by (done || lia).
    rewrite sum_deltas_snoc. simpl Nat.add. lia.
Qed.

Lemma evaluateGenome_sum g :
  genome_in_domain g → evaluateGenome g = sum_deltas g 0 NUM_STEPS.
Proof. intros Hg. by apply evaluateGenome_prefix. Qed.

Lemma evaluateGenome_range g :
  genome_in_domain g → -3840 ≤ evaluateGenome g ≤ 16064.
Proof.
  intros Hg. rewrite evaluateGenome_sum by done.
  pose proof (evaluateGenome_prefix g NUM_STEPS Hg (Nat.le_refl _)) as [_ H].
  unfold NUM_STEPS in *. lia.
Qed.

(** ** Running commands *)

Lemma exec_bind {A B} (m : Cmd A) (k : A → Cmd B) s :
  exec (bind m k) s = exec (k (fst (m s))) (snd (m s)).
Proof. unfold exec, bind. by destruct (m s). Qed.

Lemma exec_seq {A} (m : Cmd unit) (k : Cmd A) s :
  exec (m ;; k) s = exec k (exec m s).
Proof. by rewrite exec_bind. Qed.

Lemma exec_when b m s : exec (when b m) s = if b then exec m s else s.
Proof. by destruct b. Qed.

Lemma for_invariant (P : nat → Sketch → Prop) body count :
  ∀ lo s,
    P lo s →
    (∀ k t, (lo ≤ k < lo + count)%nat → P k t → P (S k) (exec (body k) t)) →
    P (lo + count)%nat (exec (for_ lo count body) s).
Proof.
  induction count as [|c IH]; intros lo s H0 Hstep.
  - by rewrite Nat.add_0_r.
  - cbn [for_]. rewrite exec_seq.
    replace (lo + S c)%nat with (S lo + c)%nat by lia.
    apply IH.
    + apply Hstep; [lia | done].
    + intros k t Hk. apply Hstep. lia.
Qed.

Lemma for_preserves (P : Sketch → Prop) body lo count s :
  P s → (∀ k t, P t → P (exec (body k) t)) → P (exec (for_ lo count body) s).
Proof.
  intros H0 Hstep.
  apply (for_invariant (λ _, P) body count lo s H0). intros k t _. apply Hstep.
Qed.

(** ** Random draws *)

Lemma random_at_range r howbig k : 0 < howbig → 0 ≤ random_at r howbig k < howbig.
Proof. intros H. unfold random_at. apply Z.rem_bound_pos; lia. Qed.

Lemma random_effect howbig s :
  howbig ≠ 0 →
  random howbig s = (random_at (rng s) howbig (cursor (rng s)),
                     with_rng (advance 1 (rng s)) s).
Proof.
  intros H. unfold random, random_draw.
  destruct (Z.eqb_spec howbig 0); [done|]. reflexivity.
Qed.

(** ** Effect of the gene-level routines *)

Ltac sketch_norm :=
  cbv beta iota zeta delta
    [with_population with_best_genome with_best_score with_current_step
     with_current_bpm with_step_time with_last_time with_beat_on
     with_like_pressed with_dislike_pressed with_rng with_trace
     population best_genome best_score current_step current_bpm step_time
     last_time beat_on like_pressed dislike_pressed rng trace
     advance raw cursor frame_of].

Lemma assign_effect field i j v s :
  exec (assign field i j v) s
  = with_population (alter (field j v) i (population s)) s.
Proof. reflexivity. Qed.

Lemma draw_then_assign howbig field i j s :
  howbig ≠ 0 →
  exec (do v <- random howbig; assign field i j v) s =
  with_rng (advance 1 (rng s))
    (with_population
       (alter (field j (random_at (rng s) howbig (cursor (rng s)))) i
          (population s)) s).
Proof.
  intros H. rewrite exec_bind, random_effect by done. cbn [fst snd].
  rewrite assign_effect. destruct s as [p bg bs cs cb st lt bo lp dp [rw cu] tr].
  reflexivity.
Qed.

Lemma initGene_effect i j s :
  exec (initGene i j) s =
  with_rng (advance 4 (rng s))
    (with_population
       (alter (write_gene j (init_draws (raw (rng s)) (cursor (rng s)))) i
          (population s)) s).
Proof.
  destruct s as [p bg bs cs cb st lt bo lp dp [rw cu] tr].
  unfold initGene.
  rewrite exec_bind, random_effect by done. cbn [fst snd].
  rewrite exec_seq, assign_effect. sketch_norm.
  rewrite exec_bind, random_effect by done. cbn [fst snd].
  rewrite exec_seq, assign_effect. sketch_norm.
  rewrite exec_bind, random_effect by done. cbn [fst snd].
  rewrite exec_seq, assign_effect. sketch_norm.
  rewrite draw_then_assign by done. sketch_norm.
  rewrite !list_alter_alter_eq, !N.add_assoc. reflexivity.
Qed.

Lemma below_rate_spec d rate :
  below_rate d rate = negb (Qnum rate * 100 <=? d * Z.pos (Qden rate)).
Proof.
  unfold below_rate, Qle_bool. destruct rate as [n m].
  cbn [Qmult Qnum Qden inject_Z]. do 2 f_equal; lia.
Qed.

Lemma below_rate_one d : d < 100 → below_rate d 1 = true.
Proof.
  intros H. rewrite below_rate_spec. cbn [Qnum Qden].
  destruct (Z.leb_spec (1 * 100) (d * 1)); [lia | done].
Qed.

Lemma below_rate_zero d : 0 ≤ d → below_rate d 0 = false.
Proof.
  intros H. rewrite below_rate_spec. cbn [Qnum Qden].
  destruct (Z.leb_spec (0 * 100) (d * 1)); [done | lia].
Qed.

(** At the configured rate the test succeeds exactly on a draw of 0. *)
Lemma below_rate_MUT_RATE d : below_rate d MUT_RATE = (d <? 1).
Proof.
  rewrite below_rate_spec. unfold MUT_RATE. cbn [Qnum Qden].
  destruct (Z.leb_spec (1 * 100) (d * 100)), (Z.ltb_spec d 1); simpl; lia.
Qed.

Lemma mutateField_one howbig field i j s :
  0 < howbig →
  exec (mutateField 1 howbig field i j) s =
  with_rng (advance 2 (rng s))
    (with_population
       (alter (field j (random_at (rng s) howbig (1 + cursor (rng s))%N)) i
          (population s)) s).
Proof.
  intros Hbig. unfold mutateField.
  rewrite exec_bind, random_effect by done. cbn [fst snd].
  rewrite below_rate_one by (apply random_at_range; lia). cbn [when].
  rewrite draw_then_assign by lia.
  destruct s as [p bg bs cs cb st lt bo lp dp [rw cu] tr]. sketch_norm.
  rewrite !N.add_assoc. reflexivity.
Qed.

Lemma mutateField_zero howbig field i j s :
  exec (mutateField 0 howbig field i j) s = with_rng (advance 1 (rng s)) s.
Proof.
  unfold mutateField.
  rewrite exec_bind, random_effect by done. cbn [fst snd].
  rewrite below_rate_zero by (apply random_at_range; lia). reflexivity.
Qed.

(** At any rate a field is either left alone or overwritten by a value of
    its domain; nothing but the population and the generator changes. *)
Lemma mutateField_cases rate howbig field i j s :
  0 < howbig →
  ∃ r, exec (mutateField rate howbig field i j) s = with_rng r s
       ∨ ∃ v, 0 ≤ v < howbig ∧
              exec (mutateField rate howbig field i j) s =
              with_rng r (with_population (alter (field j v) i (population s)) s).
Proof.
  intros Hbig. unfold mutateField.
  rewrite exec_bind, random_effect by done. cbn [fst snd].
  destruct (below_rate _ rate); cbn [when].
  - rewrite exec_bind, random_effect by lia. cbn [fst snd].
    eexists. right. eexists. split; [|reflexivity].
    apply random_at_range. lia.
  - eexists. by left.
Qed.

Lemma mutateGene_one i j s :
  exec (mutateGene 1 i j) s =
  with_rng (advance 8 (rng s))
    (with_population
       (alter (write_gene j (mutation_draws (raw (rng s)) (cursor (rng s)))) i
          (population s)) s).
Proof.
  destruct s as [p bg bs cs cb st lt bo lp dp [rw cu] tr].
  unfold mutateGene.
  rewrite exec_seq, mutateField_one by done. sketch_norm.
  rewrite exec_seq, mutateField_one by done. sketch_norm.
  rewrite exec_seq, mutateField_one by done. sketch_norm.
  rewrite mutateField_one by done. sketch_norm.
  rewrite !list_alter_alter_eq, !N.add_assoc. reflexivity.
Qed.

Lemma mutateGene_zero i j s :
  exec (mutateGene 0 i j) s = with_rng (advance 4 (rng s)) s.
Proof.
  destruct s as [p bg bs cs cb st lt bo lp dp [rw cu] tr].
  unfold mutateGene.
  rewrite exec_seq, mutateField_zero. sketch_norm.
  rewrite exec_seq, mutateField_zero. sketch_norm.
  rewrite exec_seq, mutateField_zero. sketch_norm.
  rewrite mutateField_zero. sketch_norm.
  rewrite !N.add_assoc. reflexivity.
Qed.

(** ** Writing one gene *)

Lemma write_gene_lengths j d g : lengths_ok g → lengths_ok (write_gene j d g).
Proof.
  destruct d as [[[a b] c] e]. intros (H1 & H2 & H3 & H4).
  unfold lengths_ok. simpl. by rewrite !length_insert.
Qed.

Lemma gene_at_write_eq j d g :
  lengths_ok g → (j < NUM_STEPS)%nat → gene_at (write_gene j d g) j = to_bytes d.
Proof.
  destruct d as [[[a b] c] e]. intros (H1 & H2 & H3 & H4) Hj.
  unfold gene_at. simpl.
  by rewrite !list_lookup_total_insert_eq by lia.
Qed.

Lemma gene_at_write_ne j j' d g :
  j ≠ j' → gene_at (write_gene j d g) j' = gene_at g j'.
Proof.
  destruct d as [[[a b] c] e]. intros Hne.
  unfold gene_at. simpl.
  by rewrite !list_lookup_total_insert_ne by done.
Qed.

(** ** Loops that overwrite every gene *)

Lemma population_update r p t : population (with_rng r (with_population p t)) = p.
Proof. reflexivity. Qed.

Lemma rng_update r p t : rng (with_rng r (with_population p t)) = r.
Proof. reflexivity. Qed.

Lemma frame_of_update r p t :
  frame_of (with_rng r (with_population p t)) = frame_of t.
Proof. reflexivity. Qed.

Section Overwrite.

Variable body : nat → nat → Cmd unit.
Variable width : N.
Variable draws : (N → N) → N → Z * Z * Z * Z.

Hypothesis body_effect : ∀ i j s,
  exec (body i j) s =
  with_rng (advance width (rng s))
    (with_population
       (alter (write_gene j (draws (raw (rng s)) (cursor (rng s)))) i
          (population s)) s).

Lemma overwrite_genome i s :
  (i < length (population s))%nat →
  Forall lengths_ok (population s) →
  let t := exec (for_ 0 NUM_STEPS (body i)) s in
  raw (rng t) = raw (rng s)
  ∧ cursor (rng t) = (width * N.of_nat NUM_STEPS + cursor (rng s))%N
  ∧ frame_of t = frame_of s
  ∧ length (population t) = length (population s)
  ∧ Forall lengths_ok (population t)
  ∧ (∀ i', i' ≠ i → population t !!! i' = population s !!! i')
  ∧ (∀ j, (j < NUM_STEPS)%nat →
       gene_at (population t !!! i) j
       = to_bytes (draws (raw (rng s))
                     (width * N.of_nat j + cursor (rng s))%N)).
Proof.
  intros Hi Hlen.
  pose (Inv := λ (n : nat) (t : Sketch),
    raw (rng t) = raw (rng s)
    ∧ cursor (rng t) = (width * N.of_nat n + cursor (rng s))%N
    ∧ frame_of t = frame_of s
    ∧ length (population t) = length (population s)
    ∧ Forall lengths_ok (population t)
    ∧ (∀ i', i' ≠ i → population t !!! i' = population s !!! i')
    ∧ (∀ j, (j < n)%nat →
         gene_at (population t !!! i) j
         = to_bytes (draws (raw (rng s))
                       (width * N.of_nat j + cursor (rng s))%N))).
  assert (H : Inv (0 + NUM_STEPS)%nat (exec (for_ 0 NUM_STEPS (body i)) s)).
  { apply for_invariant.
    - unfold Inv. split_and!; try done; [lia | intros; lia].
    - intros k t Hk (Hraw & Hcur & Hfr & Hl & Hok & Hother & Hdone).
      rewrite body_effect. unfold Inv.
      rewrite !population_update, !rng_update, frame_of_update.
      assert (Hit : (i < length (population t))%nat) by lia.
      assert (Hgi : lengths_ok (population t !!! i))
        by (apply (Forall_lookup_total_1 _ _ _ Hok); lia).
      split_and!.
      + done.
      + simpl. lia.
      + done.
      + by rewrite length_alter.
      + apply Forall_alter; [done|]. intros g _. apply write_gene_lengths.
      + intros i' Hne. rewrite list_lookup_total_alter_ne by done. by apply Hother.
      + intros j Hj. rewrite list_lookup_total_alter_eq by done.
        destruct (decide (j = k)) as [->|Hne].
        * rewrite gene_at_write_eq by (done || lia).
          rewrite Hraw, Hcur. done.
        * rewrite gene_at_write_ne by done. apply Hdone. lia. }
  exact H.
Qed.

Lemma overwrite_population s :
  Forall lengths_ok (population s) →
  let n := length (population s) in
  let t := exec (for_ 0 n (λ i, for_ 0 NUM_STEPS (body i))) s in
  raw (rng t) = raw (rng s)
  ∧ cursor (rng t)
    = (width * N.of_nat NUM_STEPS * N.of_nat n + cursor (rng s))%N
  ∧ frame_of t = frame_of s
  ∧ length (population t) = n
  ∧ Forall lengths_ok (population t)
  ∧ (∀ i j, (i < n)%nat → (j < NUM_STEPS)%nat →
       gene_at (population t !!! i) j
       = to_bytes (draws (raw (rng s))
                     (width * N.of_nat (NUM_STEPS * i + j)
                      + cursor (rng s))%N)).
Proof.
  intros Hlen n.
  pose (Inv := λ (m : nat) (t : Sketch),
    raw (rng t) = raw (rng s)
    ∧ cursor (rng t)
      = (width * N.of_nat NUM_STEPS * N.of_nat m + cursor (rng s))%N
    ∧ frame_of t = frame_of s
    ∧ length (population t) = n
    ∧ Forall lengths_ok (population t)
    ∧ (∀ i j, (i < m)%nat → (j < NUM_STEPS)%nat →
         gene_at (population t !!! i) j
         = to_bytes (draws (raw (rng s))
                       (width * N.of_nat (NUM_STEPS * i + j)
                        + cursor (rng s))%N))).
  assert (H : Inv (0 + n)%nat
                (exec (for_ 0 n (λ i, for_ 0 NUM_STEPS (body i))) s)).
  { apply for_invariant.
    - unfold Inv. split_and!; try done; [lia | intros; lia].
    - intros k t Hk (Hraw & Hcur & Hfr & Hl & Hok & Hdone).
      destruct (overwrite_genome k t) as (Hraw' & Hcur' & Hfr' & Hl' & Hok' & Hother & Hnew);
        [lia | done |].
      unfold Inv. split_and!.
      + congruence.
      + rewrite Hcur', Hcur. lia.
      + congruence.
      + congruence.
      + done.
      + intros i j Hi Hj. destruct (decide (i = k)) as [->|Hne].
        * rewrite Hnew by done. rewrite Hraw, Hcur. f_equal. f_equal. lia.
        * rewrite Hother by done. apply Hdone; [lia | done]. }
  exact H.
Qed.

End Overwrite.

(** ** Domains of written values *)

Lemma genome_shape_lengths g : genome_shape g → lengths_ok g.
Proof. intros ([? _] & [? _] & [? _] & [? _]). by repeat split. Qed.

Lemma genome_in_domain_lengths g : genome_in_domain g → lengths_ok g.
Proof. intros ([? _] & [? _] & [? _] & [? _]). by repeat split. Qed.

Lemma values_in_intro hi l :
  length l = NUM_STEPS → (∀ j, (j < NUM_STEPS)%nat → 0 ≤ l !!! j < hi) →
  values_in hi l.
Proof.
  intros Hlen H. split; [done|].
  refine (Forall_lookup_total_2 _ l _). intros j Hj. apply H. lia.
Qed.

Lemma genome_in_domain_intro g :
  lengths_ok g →
  (∀ j, (j < NUM_STEPS)%nat → gene_in_domain (gene_at g j)) →
  genome_in_domain g.
Proof.
  intros (H1 & H2 & H3 & H4) H.
  split_and!; apply values_in_intro; try done;
    intros j Hj; specialize (H j Hj); unfold gene_in_domain, gene_at in H; tauto.
Qed.

Lemma population_in_domain_intro p :
  length p = POP_SIZE →
  (∀ i, (i < POP_SIZE)%nat → genome_in_domain (p !!! i)) →
  population_in_domain p.
Proof.
  intros Hlen H. split; [done|].
  refine (Forall_lookup_total_2 _ p _). intros i Hi. apply H. lia.
Qed.

Lemma init_draws_in_domain r k :
  to_bytes (init_draws r k) = init_draws r k ∧ gene_in_domain (init_draws r k).
Proof.
  unfold init_draws, to_bytes, gene_in_domain, NUM_NOTES.
  set (R := mkRandom r 0).
  pose proof (random_at_range R 12 k).
  pose proof (random_at_range R 4 (1 + k)%N).
  pose proof (random_at_range R 4 (2 + k)%N).
  pose proof (random_at_range R 2 (3 + k)%N).
  rewrite !to_byte_small by lia. split; [done | lia].
Qed.

Lemma mutation_draws_in_domain r k :
  to_bytes (mutation_draws r k) = mutation_draws r k
  ∧ gene_in_domain (mutation_draws r k).
Proof.
  unfold mutation_draws, to_bytes, gene_in_domain, NUM_NOTES.
  set (R := mkRandom r 0).
  pose proof (random_at_range R 12 (1 + k)%N).
  pose proof (random_at_range R 4 (3 + k)%N).
  pose proof (random_at_range R 4 (5 + k)%N).
  pose proof (random_at_range R 2 (7 + k)%N).
  rewrite !to_byte_small by lia. split; [done | lia].
Qed.

Lemma values_in_store hi l j v :
  hi ≤ 256 → values_in hi l → 0 ≤ v < hi → values_in hi (<[j := to_byte v]> l).
Proof.
  intros Hhi [Hlen Hall] Hv. split.
  - by rewrite length_insert.
  - apply Forall_insert; [done|]. rewrite to_byte_small; lia.
Qed.

Lemma store_note_in_domain j v g :
  genome_in_domain g → 0 ≤ v < NUM_NOTES → genome_in_domain (store_note j v g).
Proof.
  intros (H1 & H2 & H3 & H4) Hv. unfold NUM_NOTES in Hv.
  split_and!; simpl; try done. by apply values_in_store.
Qed.

Lemma store_octave_in_domain j v g :
  genome_in_domain g → 0 ≤ v < 4 → genome_in_domain (store_octave j v g).
Proof.
  intros (H1 & H2 & H3 & H4) Hv.
  split_and!; simpl; try done. by apply values_in_store.
Qed.

Lemma store_waveform_in_domain j v g :
  genome_in_domain g → 0 ≤ v < 4 → genome_in_domain (store_waveform j v g).
Proof.
  intros (H1 & H2 & H3 & H4) Hv.
  split_and!; simpl; try done. by apply values_in_store.
Qed.

Lemma store_gate_in_domain j v g :
  genome_in_domain g → 0 ≤ v < 2 → genome_in_domain (store_gate j v g).
Proof.
  intros (H1 & H2 & H3 & H4) Hv.
  split_and!; simpl; try done. by apply values_in_store.
Qed.

Lemma mutateField_in_domain rate howbig field i j t :
  0 < howbig →
  (∀ g v, genome_in_domain g → 0 ≤ v < howbig → genome_in_domain (field j v g)) →
  population_in_domain (population t) →
  population_in_domain (population (exec (mutateField rate howbig field i j) t)).
Proof.
  intros Hbig Hfield [Hlen Hall].
  destruct (mutateField_cases rate howbig field i j t Hbig)
    as [r [-> | (v & Hv & ->)]].
  - by split.
  - rewrite population_update. split.
    + by rewrite length_alter.
    + apply Forall_alter; [done|]. intros g _ Hg. by apply Hfield.
Qed.

Lemma mutateGene_in_domain rate i j t :
  population_in_domain (population t) →
  population_in_domain (population (exec (mutateGene rate i j) t)).
Proof.
  intros H. unfold mutateGene. rewrite !exec_seq.
  apply mutateField_in_domain; [done | intros g v; apply store_gate_in_domain |].
  apply mutateField_in_domain; [done | intros g v; apply store_waveform_in_domain |].
  apply mutateField_in_domain; [done | intros g v; apply store_octave_in_domain |].
  apply mutateField_in_domain; [done | intros g v; apply store_note_in_domain | done].
Qed.

Lemma emit_effect e s : exec (emit e) s = with_trace (trace s ++ [e]) s.
Proof. reflexivity. Qed.

Lemma mutatePopulation_at_in_domain rate s :
  population_in_domain (population s) →
  population_in_domain (population (exec (mutatePopulation_at rate) s)).
Proof.
  intros H. unfold mutatePopulation_at. rewrite exec_seq.
  apply (for_preserves (λ t, population_in_domain (population t))); [done|].
  intros i t Ht.
  apply (for_preserves (λ t, population_in_domain (population t))); [done|].
  intros j u Hu. by apply mutateGene_in_domain.
Qed.

Lemma initPopulation_effect s :
  population_shape (population s) →
  let t := exec initPopulation s in
  raw (rng t) = raw (rng s)
  ∧ cursor (rng t)
    = (4 * N.of_nat NUM_STEPS * N.of_nat POP_SIZE + cursor (rng s))%N
  ∧ frame_of t = frame_of (with_trace (trace s ++ [CallInit]) s)
  ∧ length (population t) = POP_SIZE
  ∧ ∀ i j, (i < POP_SIZE)%nat → (j < NUM_STEPS)%nat →
      gene_at (population t !!! i) j
      = init_draws (raw (rng s))
          (4 * N.of_nat (NUM_STEPS * i + j) + cursor (rng s))%N
      ∧ lengths_ok (population t !!! i).
Proof.
  intros [Hlen Hshape]. unfold initPopulation. rewrite exec_seq, emit_effect.
  set (s1 := with_trace _ s).
  assert (Hok : Forall lengths_ok (population s1)).
  { apply (List.Forall_impl _ genome_shape_lengths). exact Hshape. }
  pose proof (overwrite_population initGene 4 init_draws initGene_effect s1 Hok)
    as (Hraw & Hcur & Hfr & Hl & Hok' & Hgenes).
  change (length (population s1)) with (length (population s)) in *.
  rewrite Hlen in *.
  split_and!; [exact Hraw | exact Hcur | exact Hfr | exact Hl |].
  intros i j Hi Hj. split.
  - rewrite Hgenes by done. apply init_draws_in_domain.
  - apply (Forall_lookup_total_1 _ _ _ Hok'). lia.
Qed.

Lemma mutatePopulation_one_effect s :
  population_shape (population s) →
  let t := exec (mutatePopulation_at 1) s in
  length (population t) = POP_SIZE
  ∧ ∀ i j, (i < POP_SIZE)%nat → (j < NUM_STEPS)%nat →
      gene_at (population t !!! i) j
      = mutation_draws (raw (rng s))
          (8 * N.of_nat (NUM_STEPS * i + j) + cursor (rng s))%N.
Proof.
  intros [Hlen Hshape]. unfold mutatePopulation_at. rewrite exec_seq, emit_effect.
  set (s1 := with_trace _ s).
  assert (Hok : Forall lengths_ok (population s1)).
  { apply (List.Forall_impl _ genome_shape_lengths). exact Hshape. }
  pose proof (overwrite_population (mutateGene 1) 8 mutation_draws
                mutateGene_one s1 Hok)
    as (Hraw & Hcur & Hfr & Hl & Hok' & Hgenes).
  change (length (population s1)) with (length (population s)) in *.
  rewrite Hlen in *.
  split; [exact Hl|].
  intros i j Hi Hj. rewrite Hgenes by done. apply mutation_draws_in_domain.
Qed.

Lemma mutatePopulation_zero_effect s :
  population (exec (mutatePopulation_at 0) s) = population s.
Proof.
  unfold mutatePopulation_at. rewrite exec_seq.
  apply (for_preserves (λ t, population t = population s)); [done|].
  intros i t Ht.
  apply (for_preserves (λ t, population t = population s)); [done|].
  intros j u Hu. by rewrite mutateGene_zero.
Qed.

(** ** Population operations keep the value domains *)

(** C7. Domain closure: after [initPopulation] (whatever bytes the
    population array held before), and after [mutatePopulation] applied
    to an in-domain population, every genome has note in [0,12), octave
    and waveform in [0,4) and gate in {0,1} at each of its 64 steps. *)
Theorem domain_closure :
  (∀ s, population_shape (population s) →
        population_in_domain (population (exec initPopulation s)))
  ∧ (∀ s, population_in_domain (population s) →
          population_in_domain (population (exec mutatePopulation s))).
Proof.
  split.
  - intros s Hs.
    destruct (initPopulation_effect s Hs) as (_ & _ & _ & Hl & Hgenes).
    apply population_in_domain_intro; [done|].
    intros i Hi. apply genome_in_domain_intro.
    + apply (Hgenes i 0%nat Hi). unfold NUM_STEPS. lia.
    + intros j Hj. destruct (Hgenes i j Hi Hj) as [-> _].
      apply init_draws_in_domain.
  - intros s Hs. by apply mutatePopulation_at_in_domain.
Qed.

Lemma domain_closure_witness :
  population_in_domain (population (exec initPopulation power_on))
  ∧ population_in_domain
      (population (exec mutatePopulation (exec initPopulation power_on))).
Proof.
  assert (H : population_in_domain (population (exec initPopulation power_on))).
  { apply (proj1 domain_closure power_on).
    apply (bool_decide_unpack _). vm_compute. exact I. }
  split; [exact H|].
  apply (proj2 domain_closure (exec initPopulation power_on)). exact H.
Defined.

(** ** Selection of the best genome *)

Lemma evaluateMember_effect i s :
  exec (evaluateMember i) s =
  let score := evaluateGenome (population s !!! i) in
  if best_score s <? score
  then with_best_genome (population s !!! i) (with_best_score score s)
  else s.
Proof.
  unfold evaluateMember. rewrite exec_bind. cbn [get fst snd].
  rewrite exec_when. cbv zeta. destruct (_ <? _); reflexivity.
Qed.

(** [evaluatePopulation] touches the best genome, the best score and the
    call trace only. *)
Lemma evaluatePopulation_frame s :
  let t := exec evaluatePopulation s in
  population t = population s ∧ rng t = rng s
  ∧ control_of t = control_of (with_trace (trace s ++ [CallEvaluate]) s).
Proof.
  unfold evaluatePopulation. rewrite !exec_seq.
  set (s1 := exec (modify _) (exec (emit _) s)).
  apply (for_preserves (λ t, population t = population s ∧ rng t = rng s
           ∧ control_of t = control_of (with_trace (trace s ++ [CallEvaluate]) s))).
  - done.
  - intros k t (H1 & H2 & H3). rewrite evaluateMember_effect. cbv zeta.
    destruct (_ <? _); done.
Qed.

Lemma evaluatePopulation_prefix s :
  population_in_domain (population s) →
  let p := population s in
  let t := exec evaluatePopulation s in
  ∃ i, p !! i = Some (best_genome t) ∧ evaluateGenome (best_genome t) = best_score t
     ∧ (∀ j h, p !! j = Some h → evaluateGenome h ≤ best_score t)
     ∧ (∀ j h, (j < i)%nat → p !! j = Some h → evaluateGenome h < best_score t).
Proof.
  intros [Hlen Hdom] p t.
  pose (Inv := λ (k : nat) (u : Sketch),
    population u = p
    ∧ (k = 0%nat → best_score u = -9999)
    ∧ ((0 < k)%nat →
       ∃ i, (i < k)%nat ∧ p !! i = Some (best_genome u)
          ∧ evaluateGenome (best_genome u) = best_score u
          ∧ (∀ j h, (j < k)%nat → p !! j = Some h
                    → evaluateGenome h ≤ best_score u)
          ∧ (∀ j h, (j < i)%nat → p !! j = Some h
                    → evaluateGenome h < best_score u))).
  assert (H : Inv (0 + POP_SIZE)%nat t).
  { unfold t, evaluatePopulation. rewrite !exec_seq.
    apply for_invariant.
    - unfold Inv. split_and!; [done | done | lia].
    - intros k u Hk (Hp & H0 & Hpos).
      rewrite evaluateMember_effect. cbv zeta. rewrite Hp.
      assert (Hget : p !! k = Some (p !!! k))
        by (apply list_lookup_lookup_total_lt; unfold p; lia).
      assert (Hgk : genome_in_domain (p !!! k))
        by (apply (Forall_lookup_1 _ _ _ _ Hdom Hget)).
      pose proof (evaluateGenome_range _ Hgk) as Hrange.
      destruct (Z.ltb_spec (best_score u) (evaluateGenome (p !!! k))) as [Hlt|Hge].
      + (* the member at [k] is strictly better *)
        unfold Inv. split_and!; [done | lia |]. intros _.
        exists k. cbn [best_genome best_score with_best_genome with_best_score].
        split_and!; [lia | done | done | |].
        * intros j h Hj Hh. destruct (decide (j = k)) as [->|Hne].
          -- rewrite Hget in Hh. injection Hh as <-. lia.
          -- destruct Hpos as (i & _ & _ & _ & Hall & _); [lia|].
             specialize (Hall j h ltac:(lia) Hh). lia.
        * intros j h Hj Hh.
          destruct Hpos as (i & _ & _ & _ & Hall & _); [lia|].
          specialize (Hall j h ltac:(lia) Hh). lia.
      + (* the current best stays *)
        destruct (decide (k = 0%nat)) as [->|Hk0]; [specialize (H0 eq_refl); lia|].
        destruct Hpos as (i & Hi & Hbest & Hscore & Hall & Hfirst); [lia|].
        unfold Inv. split_and!; [done | lia |]. intros _.
        exists i. split_and!; [lia | done | done | | done].
        intros j h Hj Hh. destruct (decide (j = k)) as [->|Hne].
        * rewrite Hget in Hh. injection Hh as <-. lia.
        * apply (Hall j h); [lia | done]. }
  destruct H as (_ & _ & Hpos).
  destruct Hpos as (i & Hi & Hbest & Hscore & Hall & Hfirst); [unfold POP_SIZE; lia|].
  exists i. split_and!; try done.
  intros j h Hh. apply (Hall j h); [|done].
  apply lookup_lt_Some in Hh. unfold p in Hh. simpl. lia.
Qed.

(** C6. After [evaluatePopulation] on a population of 100 in-domain
    genomes, [best_score] is the maximum of [evaluateGenome] over the
    members (it is attained and no member exceeds it) and [best_genome]
    is the first member in population order that attains it. *)
Theorem evaluatePopulation_first_maximum s :
  population_in_domain (population s) →
  let t := exec evaluatePopulation s in
  first_maximum (population s) (best_genome t) (best_score t).
Proof. intros H. by apply evaluatePopulation_prefix. Qed.

Lemma evaluatePopulation_first_maximum_witness :
  first_maximum (population seeded)
    (best_genome (exec evaluatePopulation seeded))
    (best_score (exec evaluatePopulation seeded)).
Proof.
  apply (evaluatePopulation_first_maximum seeded).
  apply (bool_decide_unpack _). vm_compute. exact I.
Defined.

(** ** Frames of the population routines *)

Lemma mutateGene_frame rate i j t :
  frame_of (exec (mutateGene rate i j) t) = frame_of t.
Proof.
  assert (Hfield : ∀ howbig field u, 0 < howbig →
    frame_of (exec (mutateField rate howbig field i j) u) = frame_of u).
  { intros howbig field u Hbig.
    destruct (mutateField_cases rate howbig field i j u Hbig)
      as [r [-> | (v & _ & ->)]]; reflexivity. }
  unfold mutateGene. rewrite !exec_seq, !Hfield; done.
Qed.

Lemma mutatePopulation_at_frame rate s :
  frame_of (exec (mutatePopulation_at rate) s)
  = frame_of (with_trace (trace s ++ [CallMutate]) s).
Proof.
  unfold mutatePopulation_at. rewrite exec_seq, emit_effect.
  set (s1 := with_trace _ s).
  apply (for_preserves (λ t, frame_of t = frame_of s1)); [done|].
  intros i t Ht.
  apply (for_preserves (λ t, frame_of t = frame_of s1)); [done|].
  intros j u Hu. by rewrite mutateGene_frame.
Qed.

Lemma initPopulation_frame s :
  frame_of (exec initPopulation s)
  = frame_of (with_trace (trace s ++ [CallInit]) s).
Proof.
  unfold initPopulation. rewrite exec_seq, emit_effect.
  set (s1 := with_trace _ s).
  apply (for_preserves (λ t, frame_of t = frame_of s1)); [done|].
  intros i t Ht.
  apply (for_preserves (λ t, frame_of t = frame_of s1)); [done|].
  intros j u Hu. by rewrite initGene_effect, frame_of_update.
Qed.

Lemma frame_control s t : frame_of t = frame_of s → control_of t = control_of s.
Proof.
  unfold frame_of, control_of. intros H.
  injection H as _ _ H1 H2 H3 H4 H5 H6 H7 H8. congruence.
Qed.

(** ** The end of a traversal *)

Lemma reinforce_control u :
  control_of (exec (mutatePopulation ;; evaluatePopulation) u)
  = control_of (with_trace (trace u ++ reinforce) u).
Proof.
  rewrite exec_seq.
  destruct (evaluatePopulation_frame (exec mutatePopulation u)) as (_ & _ & ->).
  pose proof (frame_control _ _ (mutatePopulation_at_frame MUT_RATE u)) as H.
  fold mutatePopulation in H. revert H.
  generalize (exec mutatePopulation u). intros t H.
  unfold control_of in *. cbn in H |- *.
  injection H as -> -> -> -> -> -> -> ->.
  by rewrite <- app_assoc.
Qed.

Lemma reset_control u :
  control_of (exec (initPopulation ;; evaluatePopulation) u)
  = control_of (with_trace (trace u ++ reset) u).
Proof.
  rewrite exec_seq.
  destruct (evaluatePopulation_frame (exec initPopulation u)) as (_ & _ & ->).
  pose proof (frame_control _ _ (initPopulation_frame u)) as H.
  revert H. generalize (exec initPopulation u). intros t H.
  unfold control_of in *. cbn in H |- *.
  injection H as -> -> -> -> -> -> -> ->.
  by rewrite <- app_assoc.
Qed.

(** What [sequence_end] does to the sequencer side, by the state of the
    two latches on entry. *)
Lemma sequence_end_control u :
  control_of (exec sequence_end u) =
  (0, current_bpm u, step_time u, last_time u, beat_on u,
   false,
   (if like_pressed u then dislike_pressed u else false),
   trace u ++ (if like_pressed u then reinforce
               else if dislike_pressed u then reset else [])).
Proof.
  unfold sequence_end. rewrite exec_seq, exec_bind. cbn [get fst snd].
  change (like_pressed (exec (modify (with_current_step 0)) u))
    with (like_pressed u).
  change (dislike_pressed (exec (modify (with_current_step 0)) u))
    with (dislike_pressed u).
  destruct (like_pressed u) eqn:Hlike; [|destruct (dislike_pressed u) eqn:Hdis].
  - rewrite exec_seq, reinforce_control. reflexivity.
  - rewrite exec_seq, reset_control. unfold control_of. cbn.
    by rewrite Hlike.
  - unfold control_of. cbn. by rewrite Hlike, Hdis, app_nil_r.
Qed.

Ltac run_norm :=
  cbv beta iota zeta delta
    [exec bind ret modify get emit when fst snd control_of
     with_population with_best_genome with_best_score with_current_step
     with_current_bpm with_step_time with_last_time with_beat_on
     with_like_pressed with_dislike_pressed with_rng with_trace
     population best_genome best_score current_step current_bpm step_time
     last_time beat_on like_pressed dislike_pressed rng trace].

Lemma tick_control inp s :
  control_of (exec (tick inp) s) =
  ((if wraps s then 0 else to_int (current_step s + 1)),
   bpm_of_reading (analog_bpm inp),
   step_time_of_bpm (bpm_of_reading (analog_bpm inp)),
   to_ulong (millis inp),
   negb (beat_on s),
   (if wraps s then false else like_pressed s),
   (if wraps s then (if like_pressed s then dislike_pressed s else false)
    else dislike_pressed s),
   trace s ++ [played s]
     ++ (if wraps s then
           if like_pressed s then reinforce
           else if dislike_pressed s then reset else []
         else [])
     ++ [BeatPin (negb (beat_on s))]).
Proof.
  unfold tick. rewrite 3!exec_seq, exec_bind. cbn [get fst snd]. rewrite exec_seq.
  set (s3 := exec (modify _) (exec playStep (exec (modify _) s))).
  assert (H3 : control_of s3 =
    (to_int (current_step s + 1), current_bpm s, step_time s,
     to_ulong (millis inp), beat_on s, like_pressed s, dislike_pressed s,
     trace s ++ [played s])) by reflexivity.
  assert (Hstep : current_step s3 = to_int (current_step s + 1)) by reflexivity.
  rewrite Hstep. fold (wraps s).
  set (s4 := exec (when (wraps s) sequence_end) s3).
  assert (H4 : control_of s4 =
    ((if wraps s then 0 else to_int (current_step s + 1)),
     current_bpm s, step_time s, to_ulong (millis inp), beat_on s,
     (if wraps s then false else like_pressed s),
     (if wraps s then (if like_pressed s then dislike_pressed s else false)
      else dislike_pressed s),
     trace s ++ [played s]
       ++ (if wraps s then
             if like_pressed s then reinforce
             else if dislike_pressed s then reset else []
           else []))).
  { unfold s4. rewrite exec_when. destruct (wraps s).
    - rewrite sequence_end_control.
      clearbody s3. unfold control_of in H3.
      injection H3 as E1 E2 E3 E4 E5 E6 E7 E8.
      rewrite ?E1, ?E2, ?E3, ?E4, ?E5, ?E6, ?E7, ?E8. by rewrite <- app_assoc.
    - rewrite H3. by rewrite app_nil_r. }
  clearbody s4. clear s3 H3 Hstep.
  destruct s4 as [p bg bs cs cb st lt bo lp dp rg tr].
  unfold control_of in H4.
  cbn [current_step current_bpm step_time last_time beat_on like_pressed
       dislike_pressed trace] in H4.
  injection H4 as -> -> -> -> -> -> -> ->.
  run_norm. by rewrite <- !app_assoc.
Qed.

Lemma tick_calls inp s :
  calls_of (tick inp) s =
  if wraps s then
    if like_pressed s then reinforce
    else if dislike_pressed s then reset else []
  else [].
Proof.
  unfold calls_of, emitted.
  pose proof (tick_control inp s) as H. unfold control_of in H.
  injection H as _ _ _ _ _ _ _ ->.
  rewrite drop_app_length.
  destruct (wraps s); [destruct (like_pressed s); [|destruct (dislike_pressed s)]|];
    reflexivity.
Qed.

Lemma tick_latches inp s :
  like_pressed (exec (tick inp) s) = (if wraps s then false else like_pressed s)
  ∧ dislike_pressed (exec (tick inp) s)
    = (if wraps s then (if like_pressed s then dislike_pressed s else false)
       else dislike_pressed s).
Proof.
  pose proof (tick_control inp s) as H. unfold control_of in H.
  injection H as _ _ _ _ _ -> -> _. done.
Qed.

(** ** Transitions at the end of a traversal *)

(** C9. A tick makes no population call, or exactly the reinforce pair,
    or exactly the reset pair, never both; at a wrap with both latches set
    it is reinforce (and so not reset), and at a wrap with neither set it
    is nothing. *)
Theorem one_transition_per_wrap inp s :
  (calls_of (tick inp) s = [] ∨ calls_of (tick inp) s = reinforce
   ∨ calls_of (tick inp) s = reset)
  ∧ (wraps s = true → like_pressed s = true → dislike_pressed s = true →
     calls_of (tick inp) s = reinforce ∧ CallInit ∉ emitted (tick inp) s)
  ∧ (wraps s = true → like_pressed s = false → dislike_pressed s = false →
     calls_of (tick inp) s = []).
Proof.
  rewrite tick_calls. split_and!.
  - destruct (wraps s); [destruct (like_pressed s); [|destruct (dislike_pressed s)]|];
      auto.
  - intros Hw Hl Hd. rewrite Hw, Hl. split; [done|].
    intros Hin.
    assert (Hc : CallInit ∈ calls_of (tick inp) s).
    { unfold calls_of. apply list_elem_of_In, filter_In. split; [|done].
      by apply list_elem_of_In. }
    rewrite tick_calls, Hw, Hl in Hc. unfold reinforce in Hc.
    apply elem_of_cons in Hc as [Hc|Hc]; [discriminate|].
    apply elem_of_cons in Hc as [Hc|Hc]; [discriminate|].
    by apply elem_of_nil in Hc.
  - intros Hw Hl Hd. by rewrite Hw, Hl, Hd.
Qed.

Lemma one_transition_per_wrap_witness :
  (calls_of (tick (quiet_pass 1)) both_latched = reinforce
   ∧ CallInit ∉ emitted (tick (quiet_pass 1)) both_latched)
  ∧ calls_of (tick (quiet_pass 1)) none_latched = [].
Proof.
  split.
  - apply (proj1 (proj2 (one_transition_per_wrap (quiet_pass 1) both_latched)));
      reflexivity.
  - apply (proj2 (proj2 (one_transition_per_wrap (quiet_pass 1) none_latched)));
      reflexivity.
Defined.

(** ** Which latch a wrap clears *)

(** C4 (as amended). At a wrap with the like latch set the reinforce pair
    (mutate, then evaluate) is called and only the like latch is cleared:
    the dislike latch keeps its value.  A reset (init, then evaluate)
    happens exactly at a wrap where dislike is latched and like is not,
    and leaves both latches clear; a tick that does not reset leaves the
    dislike latch as it found it, so a dislike that lost to a like stays
    latched for a later wrap. *)
Theorem wrap_clears_the_latch_it_served inp s :
  let t := exec (tick inp) s in
  (wraps s = true → like_pressed s = true →
     calls_of (tick inp) s = reinforce
     ∧ like_pressed t = false ∧ dislike_pressed t = dislike_pressed s)
  ∧ (calls_of (tick inp) s = reset
     ↔ wraps s = true ∧ like_pressed s = false ∧ dislike_pressed s = true)
  ∧ (calls_of (tick inp) s = reset →
     like_pressed t = false ∧ dislike_pressed t = false)
  ∧ (calls_of (tick inp) s ≠ reset →
     dislike_pressed t = dislike_pressed s).
Proof.
  intros t. unfold t.
  destruct (tick_latches inp s) as [-> ->]. rewrite tick_calls.
  unfold reinforce, reset.
  destruct (wraps s), (like_pressed s), (dislike_pressed s);
    split_and!; try done; try tauto;
    try (split; [done | intros (? & ? & ?); done]).
Qed.

Lemma wrap_clears_the_latch_it_served_witness :
  (calls_of (tick (quiet_pass 1)) both_latched = reinforce
   ∧ like_pressed (exec (tick (quiet_pass 1)) both_latched) = false
   ∧ dislike_pressed (exec (tick (quiet_pass 1)) both_latched) = true)
  ∧ calls_of (tick (quiet_pass 1)) dislike_latched = reset
  ∧ (like_pressed (exec (tick (quiet_pass 1)) dislike_latched) = false
     ∧ dislike_pressed (exec (tick (quiet_pass 1)) dislike_latched) = false).
Proof.
  pose proof (wrap_clears_the_latch_it_served (quiet_pass 1) both_latched)
    as (Hboth & _ & _ & _).
  pose proof (wrap_clears_the_latch_it_served (quiet_pass 1) dislike_latched)
    as (_ & Hiff & Hclear & _).
  split; [exact (Hboth eq_refl eq_refl)|].
  assert (Hreset : calls_of (tick (quiet_pass 1)) dislike_latched = reset)
    by (apply Hiff; split_and!; reflexivity).
  split; [exact Hreset | exact (Hclear Hreset)].
Defined.

(** C4 (as stated) fails.  From the last step of a traversal with both
    buttons latched, the next pass of [loop()] wraps and reinforces, but
    the dislike latch is still set afterwards; 64 further passes in which
    no button is pressed end in a reset. *)
Lemma stale_dislike_resets_next_traversal :
  wraps both_latched = true
  ∧ like_pressed both_latched = true
  ∧ calls_of (loop (quiet_pass 1)) both_latched = reinforce
  ∧ dislike_pressed (exec (loop (quiet_pass 1)) both_latched) = true
  ∧ Forall (λ inp, like_low inp = false ∧ dislike_low inp = false)
      (quiet_passes 2 64)
  ∧ calls_of (run (quiet_passes 2 63)) (exec (loop (quiet_pass 1)) both_latched)
    = []
  ∧ calls_of (run (quiet_passes 2 64)) (exec (loop (quiet_pass 1)) both_latched)
    = reset.
Proof.
  split_and!.
  - reflexivity.
  - reflexivity.
  - vm_compute. reflexivity.
  - vm_compute. reflexivity.
  - apply (bool_decide_unpack _). vm_compute. exact I.
  - vm_compute. reflexivity.
  - vm_compute. reflexivity.
Qed.

(** ** Where the code and the design document agree *)

(** A cell of the matrix that is listed with a non-negative number is
    read back unchanged. *)
Lemma JAZZ_TABLE_read_cell (chord_type : nat) d h :
  0 ≤ d → Reference.cell chord_type d = Some h → 0 ≤ h →
  JAZZ_TABLE_read (Z.of_nat chord_type) d = h.
Proof.
  intros Hd Hcell Hh. unfold Reference.cell in Hcell.
  apply JAZZ_TABLE_read_at; [lia | done |].
  unfold JAZZ_TABLE_at. rewrite Nat2Z.id.
  destruct chord_type as [|[|[|[|[|[|[|r]]]]]]];
  destruct (Z.to_nat d) as [|[|[|[|[|[|[|k]]]]]]];
    try (vm_compute in Hcell; discriminate);
    vm_compute in Hcell; injection Hcell as <-;
    solve [vm_compute; reflexivity | lia].
Qed.

Lemma step_delta_reference g i a :
  genome_in_domain g → (i < NUM_STEPS)%nat →
  Reference.step_score g i = Some a →
  (∀ h, Reference.cell (Z.to_nat (chord_type_at i)) (scale_degree_at g i) = Some h
        → 0 ≤ h) →
  step_delta g i = a.
Proof.
  intros Hg Hi Hstep Hnonneg.
  pose proof (scale_degree_at_range g i Hg Hi) as Hdeg.
  pose proof Hg as (Hn & _).
  pose proof (values_in_lookup _ _ _ Hn Hi) as Hnote.
  pose proof (chord_root_at_range i Hi) as Hroot.
  assert (Hsd : scale_degree_at g i
                = (note g !!! i - chord_root_at i + 12) mod 12).
  { unfold scale_degree_at, NUM_NOTES.
    rewrite Z.rem_mod_nonneg by lia.
    apply to_byte_small.
    pose proof (Z.mod_pos_bound (note g !!! i - chord_root_at i + 12) 12). lia. }
  unfold Reference.step_score in Hstep.
  assert (Hprog : Reference.progression !! (i / (64 / 4))%nat
                  = Some (Z.to_nat (chord_type_at i), chord_root_at i)).
  { unfold chord_type_at, chord_root_at, NUM_STEPS in *.
    assert (Hq : (i / (64 / 4) < 4)%nat)
      by (apply Nat.Div0.div_lt_upper_bound; simpl; lia).
    destruct (i / (64 / 4))%nat as [|[|[|[|q]]]]; [reflexivity.. | lia]. }
  rewrite Hprog in Hstep. cbn [mbind option_bind] in Hstep.
  rewrite <- Hsd in Hstep.
  destruct (Reference.cell _ _) as [h|] eqn:Hcell; [|discriminate].
  cbn [mbind option_bind] in Hstep.
  pose proof (JAZZ_TABLE_read_cell _ _ _ (proj1 Hdeg) Hcell (Hnonneg h eq_refl))
    as Hread.
  rewrite Z2Nat.id in Hread by (pose proof (chord_type_at_range i Hi); lia).
  unfold step_delta. rewrite Hread.
  assert (Hint : Reference.pitch g i - Reference.pitch g (i - 1)
                 = interval_at g i)
    by (unfold Reference.pitch, interval_at, NUM_NOTES; lia).
  destruct (decide (i = 0%nat)) as [->|Hne].
  - injection Hstep as <-. simpl. lia.
  - destruct (Nat.ltb_spec 0 i); [|lia].
    rewrite Hint in Hstep. injection Hstep as <-.
    destruct (decide _) as [(H1 & H2 & H3)|Hno].
    + rewrite H1, H2, H3. simpl. lia.
    + destruct (Z.eqb_spec (interval_at g i) 0);
      destruct (Z.eqb_spec (gate g !!! i) 1);
      destruct (Z.eqb_spec (gate g !!! (i - 1)%nat) 1); simpl; (lia || tauto).
Qed.

(** On an in-domain genome whose table accesses all stay inside the 7x7
    matrix (the rule of section 4.2 has a value) and hit no cell listed
    with a negative number, [evaluateGenome] returns the value of the
    rule of section 4.2. *)
Lemma evaluateGenome_reference g r :
  genome_in_domain g →
  Reference.score g = Some r →
  (∀ i h, (i < NUM_STEPS)%nat →
     Reference.cell (Z.to_nat (chord_type_at i)) (scale_degree_at g i) = Some h
     → 0 ≤ h) →
  evaluateGenome g = r.
Proof.
  intros Hg Hscore Hnonneg. rewrite evaluateGenome_sum by done.
  unfold Reference.score in Hscore. revert r Hscore.
  change 64%nat with NUM_STEPS.
  assert (Hgen : ∀ count lo r, (lo + count ≤ NUM_STEPS)%nat →
            Reference.sum_steps g (seq lo count) = Some r →
            sum_deltas g lo count = r).
  { induction count as [|c IH]; intros lo r Hle Hsum.
    - simpl in Hsum. by injection Hsum as <-.
    - cbn [seq Reference.sum_steps] in Hsum.
      destruct (Reference.step_score g lo) as [a|] eqn:Ha; [|discriminate].
      cbn [mbind option_bind] in Hsum.
      destruct (Reference.sum_steps g (seq (S lo) c)) as [b|] eqn:Hb;
        [|discriminate].
      cbn [mbind option_bind] in Hsum. injection Hsum as <-.
      cbn [sum_deltas].
      assert (Hlo : (lo < NUM_STEPS)%nat) by lia.
      rewrite (step_delta_reference g lo a Hg Hlo Ha)
        by (intros h Hh; by apply (Hnonneg lo h)).
      rewrite (IH (S lo) b) by (done || lia). done. }
  intros r Hscore. apply Hgen; [lia | done].
Qed.

(** The row index is always within the table, and the flat read never
    leaves the 49 bytes of the table; the column index is within the row
    exactly when the scale degree is below 7. *)
Lemma table_access_shape g i :
  genome_in_domain g → (i < NUM_STEPS)%nat →
  0 ≤ chord_type_at i < 7
  ∧ 0 ≤ 7 * chord_type_at i + scale_degree_at g i < 49
  ∧ (is_Some (JAZZ_TABLE_at (chord_type_at i) (scale_degree_at g i))
     ↔ scale_degree_at g i < 7).
Proof.
  intros Hg Hi.
  pose proof (chord_type_at_range i Hi) as Hc.
  pose proof (scale_degree_at_range g i Hg Hi) as Hd.
  split_and!; try lia.
  unfold JAZZ_TABLE_at.
  assert (Hrow : ∃ row, JAZZ_TABLE !! Z.to_nat (chord_type_at i) = Some row
                        ∧ length row = 7%nat).
  { destruct (Z.to_nat (chord_type_at i)) as [|[|[|r]]] eqn:Er;
      [eexists; split; reflexivity.. | lia]. }
  destruct Hrow as (row & -> & Hlen). cbn [mbind option_bind].
  rewrite lookup_lt_is_Some, Hlen. lia.
Qed.

(** ** Where the code leaves the design document *)

(** C1. [evaluateGenome] does not return the sum of section 4.2 on every
    in-domain genome.  On [dominant_fourth_genome] every table access is
    within the 7x7 matrix and the rule of section 4.2 gives 380, while
    [evaluateGenome] returns 4476: the sixteen steps under the dominant
    chord read the cell listed as -5 as the byte 251. *)
Theorem evaluateGenome_departs_from_reference :
  genome_in_domain dominant_fourth_genome
  ∧ Reference.score dominant_fourth_genome = Some 380
  ∧ evaluateGenome dominant_fourth_genome = 4476
  ∧ 4476 - 380 = 16 * (251 - -5).
Proof.
  split_and!.
  - apply (bool_decide_unpack _). vm_compute. exact I.
  - vm_compute. reflexivity.
  - vm_compute. reflexivity.
  - reflexivity.
Qed.

(** C2. A table access of [evaluateGenome] on an in-domain genome can
    leave the row: at step 48 of the regression vector (note 0 over the
    D minor chord, root 2) the scale degree is 10, and the bounds-checked
    access to row 1, column 10 of the 7x7 table has no cell. *)
Theorem table_lookup_leaves_the_row :
  genome_in_domain regression_genome
  ∧ chord_type_at 48 = 1
  ∧ scale_degree_at regression_genome 48 = 10
  ∧ JAZZ_TABLE_at (chord_type_at 48) (scale_degree_at regression_genome 48)
    = None
  ∧ table_accesses regression_genome !! 48%nat = Some None
  ∧ ¬ Forall is_Some (table_accesses regression_genome).
Proof.
  split_and!.
  - apply (bool_decide_unpack _). vm_compute. exact I.
  - reflexivity.
  - reflexivity.
  - reflexivity.
  - reflexivity.
  - intros Hall.
    assert (Hat : table_accesses regression_genome !! 48%nat = Some None)
      by reflexivity.
    destruct (Forall_lookup_1 _ _ _ _ Hall Hat) as [v Hv]. discriminate.
Qed.

(** C3. The cells listed as -5 and -10 are not stored as signed numbers:
    the dominant row holds 251 at scale degree 5 and 246 at scale degree
    6, no cell of the table is negative, and a step that hits the cell
    listed as -5 (step 32 of the regression vector) raises the score by
    251. *)
Theorem negative_cells_are_stored_unsigned :
  Reference.cell 2 5 = Some (-5) ∧ Reference.cell 2 6 = Some (-10)
  ∧ JAZZ_TABLE_at 2 5 = Some 251 ∧ JAZZ_TABLE_at 2 6 = Some 246
  ∧ Forall (Forall (λ v, 0 ≤ v)) JAZZ_TABLE
  ∧ chord_type_at 32 = 2 ∧ scale_degree_at regression_genome 32 = 5
  ∧ for_loop 0 32 (evaluateStep regression_genome) 0 = 160
  ∧ evaluateStep regression_genome 32 160 = 160 + 251.
Proof.
  split_and!; try reflexivity.
  apply (bool_decide_unpack _). vm_compute. exact I.
Qed.

Lemma bpm_of_reading_range reading :
  0 ≤ reading ≤ 1023 →
  60 ≤ bpm_of_reading reading ≤ 315
  ∧ (300 < bpm_of_reading reading ↔ 964 ≤ reading).
Proof.
  intros H. unfold bpm_of_reading.
  assert (0 ≤ reading ÷ 4 ≤ 255 ∧ (240 < reading ÷ 4 ↔ 964 ≤ reading)).
  { rewrite Z.quot_div_nonneg by lia.
    pose proof (Z.div_mod reading 4 ltac:(lia)).
    pose proof (Z.mod_pos_bound reading 4 ltac:(lia)). lia. }
  rewrite to_int_small; lia.
Qed.

(** C5. The tempo is not clamped to 300: with the analog pin at its
    maximum reading 1023 a tick leaves [current_bpm] at 315 and
    [step_time] at 60000 / 315 / 4 = 47 ms. *)
Theorem tempo_is_not_clamped s :
  let inp := mkInputs 0 1023 false false in
  current_bpm (exec (tick inp) s) = 315
  ∧ step_time (exec (tick inp) s) = 47.
Proof.
  intros inp. pose proof (tick_control inp s) as H. unfold control_of in H.
  injection H as _ -> -> _ _ _ _ _. split; reflexivity.
Qed.

(** ** No elitism *)

(** C10. Reinforcing can lower the best score.  From a population of 100
    copies of a genome scoring 624, and a sequence of random results under
    which exactly the octave tests succeed and every octave drawn is 0,
    [mutatePopulation] followed by [evaluatePopulation] leaves a best
    score of 496, and no member of the new population reaches the old
    best score: the old best genome was mutated like the others and is
    not put back. *)
Theorem reinforce_can_lower_the_best_score :
  ∃ s,
    population_in_domain (population s)
    ∧ let before := exec evaluatePopulation s in
      let after := exec (mutatePopulation ;; evaluatePopulation) before in
      best_score before = 624 ∧ best_score after = 496
      ∧ best_score after < best_score before
      ∧ Forall (λ g, evaluateGenome g < best_score before) (population after).
Proof.
  exists champions. split.
  - apply (bool_decide_unpack _). vm_compute. exact I.
  - cbv zeta.
    assert (Hb : best_score (exec evaluatePopulation champions) = 624)
      by (vm_compute; reflexivity).
    assert (Ha : best_score (exec (mutatePopulation ;; evaluatePopulation)
                               (exec evaluatePopulation champions)) = 496)
      by (vm_compute; reflexivity).
    rewrite Hb, Ha. split_and!; [done | done | lia |].
    apply (bool_decide_unpack _). vm_compute. exact I.
Qed.

(** * Further properties of the code *)

(** ** Scoring *)

Lemma sum_deltas_le g g' count :
  ∀ lo,
    (∀ i, (lo ≤ i < lo + count)%nat → step_delta g i ≤ step_delta g' i) →
    sum_deltas g lo count ≤ sum_deltas g' lo count.
Proof.
  induction count as [|c IH]; intros lo H; simpl; [lia|].
  pose proof (H lo ltac:(lia)).
  pose proof (IH (S lo) (λ i Hi, H i ltac:(lia))). lia.
Qed.

(** X3. An open gate never raises the score.  Of two in-domain genomes
    with the same notes, octaves and waveforms, the one whose gates are
    on at fewer steps (every step gated on in the second is gated on in
    the first) scores at least as much. *)
Theorem closing_gates_never_lowers_score g g' :
  genome_in_domain g → genome_in_domain g' →
  note g' = note g → octave g' = octave g → waveform g' = waveform g →
  Forall2 (λ b a, b = 1 → a = 1) (gate g') (gate g) →
  evaluateGenome g ≤ evaluateGenome g'.
Proof.
  intros Hg Hg' Hn Ho Hw Hgate.
  rewrite !evaluateGenome_sum by done.
  apply sum_deltas_le. intros i Hi.
  assert (Hpoint : ∀ j, (j < NUM_STEPS)%nat →
            gate g' !!! j = 1 → gate g !!! j = 1).
  { intros j Hj.
    destruct Hg as (_ & _ & _ & [Hl _]), Hg' as (_ & _ & _ & [Hl' _]).
    apply (Forall2_lookup_lr _ _ _ j _ _ Hgate);
      apply list_lookup_lookup_total_lt; lia. }
  unfold step_delta, scale_degree_at, interval_at. rewrite Hn, Ho, Hw.
  destruct (0 <? i)%nat; [|lia].
  set (iv := _ - _ - _ * NUM_NOTES).
  destruct (iv =? 0); simpl; [|lia].
  destruct (Z.eqb_spec (gate g' !!! i) 1) as [E1|E1]; simpl; [|destruct (_ && _); lia].
  destruct (Z.eqb_spec (gate g' !!! (i - 1)%nat) 1) as [E2|E2]; simpl;
    [|destruct (_ && _); lia].
  rewrite (Hpoint i) by (done || unfold NUM_STEPS in *; lia).
  rewrite (Hpoint (i - 1)%nat) by (done || unfold NUM_STEPS in *; lia).
  simpl. lia.
Qed.

Lemma closing_gates_never_lowers_score_witness :
  evaluateGenome gates_on_genome ≤ evaluateGenome gates_off_genome.
Proof.
  apply (closing_gates_never_lowers_score gates_on_genome gates_off_genome).
  - apply (bool_decide_unpack _). vm_compute. exact I.
  - apply (bool_decide_unpack _). vm_compute. exact I.
  - reflexivity.
  - reflexivity.
  - reflexivity.
  - apply (bool_decide_unpack _). vm_compute. exact I.
Defined.

(** ** Tempo *)

(** X7. For every reading of the 10-bit tempo pin the derived tempo is
    at least 60, so the division by it is defined, the step interval lies
    between 47 and 250 ms, and a higher reading never gives a longer
    interval. *)
Theorem step_time_range reading reading' :
  0 ≤ reading → reading ≤ reading' → reading' ≤ 1023 →
  60 ≤ bpm_of_reading reading
  ∧ 47 ≤ step_time_of_bpm (bpm_of_reading reading) ≤ 250
  ∧ step_time_of_bpm (bpm_of_reading reading')
    ≤ step_time_of_bpm (bpm_of_reading reading).
Proof.
  intros H0 Hle Hmax.
  assert (Hbpm : ∀ r, 0 ≤ r ≤ 1023 →
            bpm_of_reading r = r / 4 + 60 ∧ 60 ≤ r / 4 + 60 ≤ 315).
  { intros r Hr. unfold bpm_of_reading.
    rewrite Z.quot_div_nonneg by lia.
    pose proof (Z.div_mod r 4 ltac:(lia)).
    pose proof (Z.mod_pos_bound r 4 ltac:(lia)).
    rewrite to_int_small; lia. }
  assert (Hstep : ∀ b, 60 ≤ b ≤ 315 →
            step_time_of_bpm b = 60000 / b / 4 ∧ 47 ≤ 60000 / b / 4 ≤ 250).
  { intros b Hb. unfold step_time_of_bpm.
    assert (190 ≤ 60000 / b ≤ 1000).
    { split.
      - change 190 with (60000 / 315). apply Z.div_le_compat_l; lia.
      - change 1000 with (60000 / 60). apply Z.div_le_compat_l; lia. }
    rewrite (Z.quot_div_nonneg 60000 b) by lia.
    rewrite Z.quot_div_nonneg by lia.
    assert (47 ≤ 60000 / b / 4 ≤ 250).
    { split.
      - change 47 with (190 / 4). apply Z.div_le_mono; lia.
      - change 250 with (1000 / 4). apply Z.div_le_mono; lia. }
    unfold to_ulong. rewrite Z.mod_small; lia. }
  destruct (Hbpm reading ltac:(lia)) as [-> Hb].
  destruct (Hbpm reading' ltac:(lia)) as [-> Hb'].
  destruct (Hstep _ Hb) as [-> Hs].
  destruct (Hstep _ Hb') as [-> Hs'].
  split_and!; try lia.
  apply Z.div_le_mono; [lia|].
  apply Z.div_le_compat_l; [lia|].
  split; [lia|]. apply Z.add_le_mono_r. apply Z.div_le_mono; lia.
Qed.

Lemma step_time_range_witness :
  60 ≤ bpm_of_reading 512
  ∧ 47 ≤ step_time_of_bpm (bpm_of_reading 512) ≤ 250
  ∧ step_time_of_bpm (bpm_of_reading 1023)
    ≤ step_time_of_bpm (bpm_of_reading 512).
Proof. apply (step_time_range 512 1023); lia. Defined.

(** ** Population routines *)

Lemma first_maximum_unique p g m g' m' :
  first_maximum p g m → first_maximum p g' m' → g = g' ∧ m = m'.
Proof.
  intros (i & Hi & Hm & Hall & Hfirst) (i' & Hi' & Hm' & Hall' & Hfirst').
  pose proof (Hall i' g' Hi'). pose proof (Hall' i g Hi).
  assert (m = m') by lia. subst m'.
  destruct (Nat.lt_trichotomy i i') as [Hlt|[->|Hgt]].
  - pose proof (Hfirst' i g Hlt Hi). lia.
  - split; congruence.
  - pose proof (Hfirst i' g' Hgt Hi'). lia.
Qed.

(** X4. [evaluatePopulation] reads the population without changing it or
    the random generator, and on an in-domain population a second call
    straight after the first selects the same best genome and score. *)
Theorem evaluatePopulation_idempotent s :
  population_in_domain (population s) →
  let t := exec evaluatePopulation s in
  let u := exec evaluatePopulation t in
  population t = population s ∧ rng t = rng s
  ∧ best_genome u = best_genome t ∧ best_score u = best_score t.
Proof.
  intros Hdom t u.
  destruct (evaluatePopulation_frame s) as (Hp & Hr & _). fold t in Hp, Hr.
  split_and!; [done | done | |];
    assert (Hdom' : population_in_domain (population t)) by (by rewrite Hp);
    pose proof (evaluatePopulation_prefix t Hdom') as Hu;
    pose proof (evaluatePopulation_prefix s Hdom) as Ht;
    cbv zeta in Hu, Ht; fold t in Ht; fold u in Hu; rewrite Hp in Hu;
    by destruct (first_maximum_unique _ _ _ _ _ Hu Ht).
Qed.

Lemma evaluatePopulation_idempotent_witness :
  population (exec evaluatePopulation seeded) = population seeded
  ∧ rng (exec evaluatePopulation seeded) = rng seeded
  ∧ best_genome (exec evaluatePopulation (exec evaluatePopulation seeded))
    = best_genome (exec evaluatePopulation seeded)
  ∧ best_score (exec evaluatePopulation (exec evaluatePopulation seeded))
    = best_score (exec evaluatePopulation seeded).
Proof.
  apply (evaluatePopulation_idempotent seeded).
  apply (bool_decide_unpack _). vm_compute. exact I.
Defined.

Lemma gene_at_ext g g' :
  lengths_ok g → lengths_ok g' →
  (∀ j, (j < NUM_STEPS)%nat → gene_at g j = gene_at g' j) → g = g'.
Proof.
  destruct g as [n o w ga], g' as [n' o' w' ga'].
  intros (H1 & H2 & H3 & H4) (H1' & H2' & H3' & H4') H. simpl in *.
  assert (Hlist : ∀ (l l' : list Z),
            length l = NUM_STEPS → length l' = NUM_STEPS →
            (∀ j, (j < NUM_STEPS)%nat → l !!! j = l' !!! j) → l = l').
  { intros l l' Hl Hl' Heq.
    apply (list_eq_same_length _ _ NUM_STEPS); [done | done |].
    intros j x y Hj Hx Hy.
    apply list_lookup_total_correct in Hx, Hy. rewrite <- Hx, <- Hy. by apply Heq. }
  f_equal; apply Hlist; try done; intros j Hj; specialize (H j Hj);
    unfold gene_at in H; simpl in H; congruence.
Qed.

(** X5. [initPopulation] forgets the previous population: from two
    states with the same random generator it produces the same
    population, whatever bytes the population arrays held before, and it
    makes exactly 4 * 64 * 100 = 25600 calls of [random]. *)
Theorem initPopulation_forgets_the_population s s' :
  population_shape (population s) → population_shape (population s') →
  rng s' = rng s →
  population (exec initPopulation s') = population (exec initPopulation s)
  ∧ rng (exec initPopulation s') = rng (exec initPopulation s)
  ∧ cursor (rng (exec initPopulation s)) = (25600 + cursor (rng s))%N.
Proof.
  intros Hs Hs' Hrng.
  destruct (initPopulation_effect s Hs) as (Hraw & Hcur & _ & Hl & Hgenes).
  destruct (initPopulation_effect s' Hs') as (Hraw' & Hcur' & _ & Hl' & Hgenes').
  rewrite Hrng in Hraw', Hcur', Hgenes'.
  split_and!.
  - apply (list_eq_same_length _ _ POP_SIZE); [exact Hl | exact Hl' |].
    intros i x y Hi Hx Hy.
    apply list_lookup_total_correct in Hx, Hy. subst x y.
    assert (H0 : (0 < NUM_STEPS)%nat) by (unfold NUM_STEPS; lia).
    apply gene_at_ext.
    + apply (Hgenes' i 0%nat Hi H0).
    + apply (Hgenes i 0%nat Hi H0).
    + intros j Hj.
      destruct (Hgenes i j Hi Hj) as [-> _].
      by destruct (Hgenes' i j Hi Hj) as [-> _].
  - assert (Hext : ∀ r r' : Random,
              raw r' = raw r → cursor r' = cursor r → r' = r)
      by (intros [] []; simpl; congruence).
    apply Hext; congruence.
  - rewrite Hcur. reflexivity.
Qed.

Lemma initPopulation_forgets_the_population_witness :
  let s' := with_population (population champions) power_on in
  population (exec initPopulation s') = population (exec initPopulation power_on)
  ∧ rng (exec initPopulation s') = rng (exec initPopulation power_on)
  ∧ cursor (rng (exec initPopulation power_on)) = (25600 + cursor (rng power_on))%N.
Proof.
  apply (initPopulation_forgets_the_population power_on
           (with_population (population champions) power_on)).
  - apply (bool_decide_unpack _). vm_compute. exact I.
  - apply (bool_decide_unpack _). vm_compute. exact I.
  - reflexivity.
Defined.

Lemma population_with_rng_only r t : population (with_rng r t) = population t.
Proof. reflexivity. Qed.

Lemma mutateField_skip howbig field i j s :
  random_at (rng s) 100 (cursor (rng s)) ≠ 0 →
  exec (mutateField MUT_RATE howbig field i j) s = with_rng (advance 1 (rng s)) s.
Proof.
  intros Hd. unfold mutateField.
  rewrite exec_bind, random_effect by done. cbn [fst snd].
  rewrite below_rate_MUT_RATE.
  pose proof (random_at_range (rng s) 100 (cursor (rng s)) ltac:(lia)).
  destruct (Z.ltb_spec (random_at (rng s) 100 (cursor (rng s))) 1); [lia|].
  reflexivity.
Qed.

Lemma mutateGene_skip i j s :
  (∀ k, (k < 4)%N → random_at (rng s) 100 (k + cursor (rng s))%N ≠ 0) →
  exec (mutateGene MUT_RATE i j) s = with_rng (advance 4 (rng s)) s.
Proof.
  intros H.
  pose proof (H 0%N ltac:(lia)) as H0. pose proof (H 1%N ltac:(lia)) as H1.
  pose proof (H 2%N ltac:(lia)) as H2. pose proof (H 3%N ltac:(lia)) as H3.
  clear H. destruct s as [p bg bs cs cb st lt bo lp dp [rw cu] tr].
  unfold random_at in *. cbn [rng raw cursor] in *.
  rewrite N.add_0_l in H0.
  unfold mutateGene.
  rewrite exec_seq, mutateField_skip by exact H0. sketch_norm.
  rewrite exec_seq, mutateField_skip by exact H1. sketch_norm.
  rewrite exec_seq, (mutateField_skip 4 store_waveform)
    by (unfold random_at; cbn [rng raw cursor]; rewrite N.add_assoc; exact H2).
  sketch_norm.
  rewrite mutateField_skip
    by (unfold random_at; cbn [rng raw cursor]; rewrite !N.add_assoc; exact H3).
  sketch_norm. rewrite !N.add_assoc. reflexivity.
Qed.

(** X6. A field is mutated only when its rate test draws 0.  If none of
    the next 25600 results of the generator is a multiple of 100,
    [mutatePopulation] leaves the population exactly as it was and makes
    exactly 25600 calls of [random] (the four tests of each of the 6400
    steps and no value draw). *)
Theorem mutatePopulation_without_zero_draws s :
  (∀ k, (k < 25600)%N → random_at (rng s) 100 (k + cursor (rng s))%N ≠ 0) →
  population (exec mutatePopulation s) = population s
  ∧ cursor (rng (exec mutatePopulation s)) = (25600 + cursor (rng s))%N.
Proof.
  intros Hdraws.
  unfold mutatePopulation, mutatePopulation_at. rewrite exec_seq, emit_effect.
  set (s1 := with_trace _ s).
  pose (Inner := λ (i j : nat) (t : Sketch),
    population t = population s ∧ raw (rng t) = raw (rng s)
    ∧ cursor (rng t)
      = (4 * N.of_nat (NUM_STEPS * i + j) + cursor (rng s))%N).
  pose (Outer := λ (i : nat) (t : Sketch), Inner i 0%nat t).
  assert (H : Outer (0 + POP_SIZE)%nat
                (exec (for_ 0 POP_SIZE
                         (λ i, for_ 0 NUM_STEPS (λ j, mutateGene MUT_RATE i j))) s1)).
  { apply for_invariant.
    - unfold Outer, Inner. split_and!; [done | done | simpl; lia].
    - intros i t Hi Ht.
      assert (Hin : Inner i (0 + NUM_STEPS)%nat
                      (exec (for_ 0 NUM_STEPS (λ j, mutateGene MUT_RATE i j)) t)).
      { apply (for_invariant (Inner i)); [exact Ht|].
        intros j u Hj (Hp & Hraw & Hcur).
        rewrite mutateGene_skip.
        - unfold Inner. rewrite population_with_rng_only.
          split_and!; [done | done |]. cbn [rng with_rng advance cursor].
          rewrite Hcur. lia.
        - intros k Hk. unfold random_at. rewrite Hraw, Hcur.
          unfold NUM_STEPS, POP_SIZE in *.
          replace (k + (4 * N.of_nat (64 * i + j) + cursor (rng s)))%N
            with (k + 4 * N.of_nat (64 * i + j) + cursor (rng s))%N by lia.
          apply (Hdraws (k + 4 * N.of_nat (64 * i + j))%N). lia. }
      destruct Hin as (Hp & Hraw & Hcur). unfold Outer, Inner.
      split_and!; [done | done |]. rewrite Hcur. unfold NUM_STEPS. lia. }
  destruct H as (Hp & _ & Hcur). split; [exact Hp|].
  rewrite Hcur. reflexivity.
Qed.

Lemma mutatePopulation_without_zero_draws_witness :
  let s := with_rng (mkRandom never_zero_raw 0) champions in
  population (exec mutatePopulation s) = population s
  ∧ cursor (rng (exec mutatePopulation s)) = (25600 + cursor (rng s))%N.
Proof.
  apply (mutatePopulation_without_zero_draws
           (with_rng (mkRandom never_zero_raw 0) champions)).
  intros k _. unfold random_at, never_zero_raw. simpl.
  replace (Z.of_N (100 * (k + 0) + 1)) with (1 + Z.of_N k * 100) by lia.
  rewrite Z.rem_mod_nonneg by lia. rewrite Z_mod_plus_full. discriminate.
Defined.

(** ** Passes of the main loop *)

Lemma updateControl_effect inp s :
  exec (updateControl inp) s =
  with_dislike_pressed (dislike_pressed s || dislike_low inp)
    (with_like_pressed (like_pressed s || like_low inp) s).
Proof.
  destruct s as [p bg bs cs cb st lt bo lp dp rg tr].
  unfold updateControl. rewrite exec_seq, !exec_when.
  destruct (like_low inp), (dislike_low inp); run_norm;
    rewrite ?orb_true_r, ?orb_false_r; reflexivity.
Qed.

Lemma loop_effect inp s :
  exec (loop inp) s =
  if due inp s then exec (tick inp) (exec (updateControl inp) s)
  else exec (updateControl inp) s.
Proof.
  unfold loop. rewrite exec_seq, exec_bind. cbn [get fst snd].
  rewrite exec_when. rewrite updateControl_effect. reflexivity.
Qed.

Lemma loop_emitted inp s :
  emitted (loop inp) s =
  if due inp s then emitted (tick inp) (exec (updateControl inp) s) else [].
Proof.
  unfold emitted. rewrite loop_effect.
  assert (Htr : trace (exec (updateControl inp) s) = trace s)
    by (by rewrite updateControl_effect).
  destruct (due inp s).
  - by rewrite Htr.
  - rewrite Htr. by rewrite drop_all.
Qed.

(** X8. [loop()] measures the elapsed time modulo 2^32, so the roll-over
    of [millis()] does not disturb it: if [d] ms have really passed since
    the last step, the pass runs the step exactly when [step_time <= d];
    otherwise it only latches the buttons (a latch can be set, never
    cleared) and leaves every other global and the outputs untouched. *)
Theorem loop_is_rollover_safe inp s d :
  0 ≤ last_time s < 4294967296 → 0 ≤ d < 4294967296 →
  millis inp = (last_time s + d) mod 4294967296 →
  (step_time s ≤ d →
     exec (loop inp) s = exec (tick inp) (exec (updateControl inp) s))
  ∧ (d < step_time s →
     exec (loop inp) s =
     with_dislike_pressed (dislike_pressed s || dislike_low inp)
       (with_like_pressed (like_pressed s || like_low inp) s)
     ∧ emitted (loop inp) s = []).
Proof.
  intros Hlast Hd Hm.
  assert (Hdue : due inp s = (step_time s <=? d)).
  { unfold due, to_ulong. rewrite Hm. rewrite Z.mod_mod by lia.
    rewrite Zminus_mod_idemp_l.
    replace (last_time s + d - last_time s) with d by lia.
    by rewrite Z.mod_small by lia. }
  rewrite loop_emitted, loop_effect, Hdue. split.
  - intros H. by destruct (Z.leb_spec (step_time s) d); [|lia].
  - intros H. destruct (Z.leb_spec (step_time s) d); [lia|].
    by rewrite updateControl_effect.
Qed.

Lemma loop_is_rollover_safe_witness :
  let s := with_last_time 4294967196 both_latched in
  let inp := mkInputs 150 0 false false in
  exec (loop inp) s = exec (tick inp) (exec (updateControl inp) s).
Proof.
  apply (loop_is_rollover_safe (mkInputs 150 0 false false)
           (with_last_time 4294967196 both_latched) 250).
  - vm_compute. split; congruence.
  - lia.
  - reflexivity.
  - vm_compute. congruence.
Defined.

(** X9. A latched press is never lost.  If the like latch is set, or the
    like button is pressed during the pass, then after the pass the latch
    is still set unless the pass made the reinforce calls; likewise the
    dislike latch survives every pass that does not make the reset
    calls. *)
Theorem latches_are_never_dropped inp s :
  (like_pressed s = true ∨ like_low inp = true →
     like_pressed (exec (loop inp) s) = true
     ∨ calls_of (loop inp) s = reinforce)
  ∧ (dislike_pressed s = true ∨ dislike_low inp = true →
     dislike_pressed (exec (loop inp) s) = true
     ∨ calls_of (loop inp) s = reset).
Proof.
  unfold calls_of. rewrite loop_emitted, loop_effect.
  set (s1 := exec (updateControl inp) s).
  assert (Hl : like_pressed s1 = like_pressed s || like_low inp)
    by (unfold s1; by rewrite updateControl_effect).
  assert (Hd : dislike_pressed s1 = dislike_pressed s || dislike_low inp)
    by (unfold s1; by rewrite updateControl_effect).
  pose proof (tick_calls inp s1) as Hc. unfold calls_of in Hc.
  destruct (tick_latches inp s1) as [Hl' Hd'].
  split.
  - intros H. assert (Hl1 : like_pressed s1 = true)
      by (rewrite Hl; destruct H as [-> | ->]; by rewrite ?orb_true_r).
    destruct (due inp s); [|by left].
    rewrite Hl', Hc, Hl1. destruct (wraps s1); auto.
  - intros H. assert (Hd1 : dislike_pressed s1 = true)
      by (rewrite Hd; destruct H as [-> | ->]; by rewrite ?orb_true_r).
    destruct (due inp s); [|by left].
    rewrite Hd', Hc, Hd1.
    destruct (wraps s1); [destruct (like_pressed s1)|]; auto.
Qed.

Lemma latches_are_never_dropped_witness :
  (like_pressed (exec (loop (quiet_pass 1)) both_latched) = true
   ∨ calls_of (loop (quiet_pass 1)) both_latched = reinforce)
  ∧ (dislike_pressed (exec (loop (quiet_pass 1)) both_latched) = true
     ∨ calls_of (loop (quiet_pass 1)) both_latched = reset).
Proof.
  pose proof (latches_are_never_dropped (quiet_pass 1) both_latched) as [H1 H2].
  split; [apply H1 | apply H2]; left; reflexivity.
Defined.

Lemma wraps_spec s :
  0 ≤ current_step s < Z.of_nat NUM_STEPS →
  wraps s = (current_step s =? 63)
  ∧ (if wraps s then 0 else to_int (current_step s + 1))
    = (current_step s + 1) mod 64.
Proof.
  intros H. unfold NUM_STEPS in H. unfold wraps, NUM_STEPS.
  rewrite to_int_small by lia.
  destruct (Z.eqb_spec (current_step s + 1) (Z.of_nat 64)) as [E|E];
  destruct (Z.eqb_spec (current_step s) 63) as [E'|E']; try lia.
  - split; [done|]. rewrite E'. reflexivity.
  - split; [done|]. rewrite Z.mod_small; lia.
Qed.

(** X10. Every step does the same three things in the same order: it
    hands exactly one note to the audio side, the step of the best genome
    at the index it had on entry (so a genome replaced by this very tick
    is heard from the next step on), then makes the transition calls if
    any, then writes the toggled beat level to the beat pin; and it moves
    the index from [k] to [(k + 1) mod 64]. *)
Theorem tick_plays_then_transits_then_beats inp s :
  0 ≤ current_step s < Z.of_nat NUM_STEPS →
  emitted (tick inp) s
  = [note_event (best_genome s) (Z.to_nat (current_step s))]
    ++ calls_of (tick inp) s ++ [BeatPin (negb (beat_on s))]
  ∧ beat_on (exec (tick inp) s) = negb (beat_on s)
  ∧ current_step (exec (tick inp) s) = (current_step s + 1) mod 64.
Proof.
  intros Hstep. rewrite tick_calls. unfold emitted.
  pose proof (tick_control inp s) as H. unfold control_of in H.
  injection H as Hcs _ _ _ Hbeat _ _ Htr.
  rewrite Htr, drop_app_length, Hbeat, Hcs.
  split_and!; [reflexivity | reflexivity |].
  by destruct (wraps_spec s Hstep) as [_ ->].
Qed.

Lemma tick_plays_then_transits_then_beats_witness :
  emitted (tick (quiet_pass 1)) both_latched
  = [note_event (best_genome both_latched) (Z.to_nat (current_step both_latched))]
    ++ calls_of (tick (quiet_pass 1)) both_latched
    ++ [BeatPin (negb (beat_on both_latched))]
  ∧ beat_on (exec (tick (quiet_pass 1)) both_latched)
    = negb (beat_on both_latched)
  ∧ current_step (exec (tick (quiet_pass 1)) both_latched)
    = (current_step both_latched + 1) mod 64.
Proof.
  apply (tick_plays_then_transits_then_beats (quiet_pass 1) both_latched).
  vm_compute. split; congruence.
Defined.

(** ** The state the sequencer relies on *)

Lemma genome_in_domain_shape g : genome_in_domain g → genome_shape g.
Proof.
  assert (H : ∀ hi l, hi ≤ 256 → values_in hi l → values_in 256 l).
  { intros hi l Hhi [Hlen Hall]. split; [done|].
    apply (List.Forall_impl (λ v, 0 ≤ v < 256)) with (2 := Hall).
    intros v Hv. simpl in Hv. lia. }
  intros (H1 & H2 & H3 & H4).
  split_and!; eapply H; try eassumption; lia.
Qed.

Lemma population_in_domain_shape p :
  population_in_domain p → population_shape p.
Proof.
  intros [Hlen Hall]. split; [done|].
  apply (List.Forall_impl _ genome_in_domain_shape). exact Hall.
Qed.

Lemma initPopulation_in_domain s :
  population_shape (population s) →
  population_in_domain (population (exec initPopulation s)).
Proof.
  intros Hs.
  destruct (initPopulation_effect s Hs) as (_ & _ & _ & Hl & Hgenes).
  apply population_in_domain_intro; [done|].
  intros i Hi. apply genome_in_domain_intro.
  - apply (Hgenes i 0%nat Hi). unfold NUM_STEPS. lia.
  - intros j Hj. destruct (Hgenes i j Hi Hj) as [-> _].
    apply init_draws_in_domain.
Qed.

(** A population routine followed by [evaluatePopulation] leaves a valid
    best genome whenever the routine leaves an in-domain population. *)
Lemma evaluate_after (m : Cmd unit) u :
  population_in_domain (population (exec m u)) →
  let t := exec (m ;; evaluatePopulation) u in
  population_in_domain (population t)
  ∧ first_maximum (population t) (best_genome t) (best_score t).
Proof.
  intros Hdom t. unfold t. rewrite exec_seq.
  destruct (evaluatePopulation_frame (exec m u)) as (Hp & _ & _).
  pose proof (evaluatePopulation_prefix (exec m u) Hdom) as Hmax.
  cbv zeta in Hmax. rewrite Hp. split; [done | exact Hmax].
Qed.

Lemma sequence_end_valid u :
  population_in_domain (population u) →
  first_maximum (population u) (best_genome u) (best_score u) →
  let t := exec sequence_end u in
  population_in_domain (population t)
  ∧ first_maximum (population t) (best_genome t) (best_score t).
Proof.
  intros Hdom Hmax. unfold sequence_end.
  rewrite exec_seq, exec_bind. cbn [get fst snd].
  change (like_pressed (exec (modify (with_current_step 0)) u))
    with (like_pressed u).
  change (dislike_pressed (exec (modify (with_current_step 0)) u))
    with (dislike_pressed u).
  destruct (like_pressed u); [|destruct (dislike_pressed u)].
  - rewrite exec_seq. apply evaluate_after.
    apply mutatePopulation_at_in_domain. exact Hdom.
  - rewrite exec_seq. apply evaluate_after.
    apply initPopulation_in_domain.
    apply population_in_domain_shape. exact Hdom.
  - split; [exact Hdom | exact Hmax].
Qed.

Lemma tick_data inp s :
  ∃ u, data_of u = data_of s
       ∧ data_of (exec (tick inp) s)
         = data_of (if wraps s then exec sequence_end u else u).
Proof.
  unfold tick. rewrite 3!exec_seq, exec_bind. cbn [get fst snd]. rewrite exec_seq.
  set (s3 := exec (modify _) (exec playStep (exec (modify _) s))).
  assert (H3 : data_of s3 = data_of s) by reflexivity.
  assert (Hstep : current_step s3 = to_int (current_step s + 1)) by reflexivity.
  rewrite Hstep. fold (wraps s).
  exists s3. split; [exact H3|].
  rewrite exec_when.
  generalize (if wraps s then exec sequence_end s3 else s3). intros s4.
  destruct s4 as [p bg bs cs cb st lt bo lp dp rg tr]. reflexivity.
Qed.

Lemma tick_healthy inp s : healthy s → healthy (exec (tick inp) s).
Proof.
  intros (Hdom & Hmax & Hstep).
  destruct (tick_data inp s) as (u & Hu & Ht).
  assert (Hvalid : population_in_domain (population (exec (tick inp) s))
                   ∧ first_maximum (population (exec (tick inp) s))
                       (best_genome (exec (tick inp) s))
                       (best_score (exec (tick inp) s))).
  { unfold data_of in Hu, Ht.
    injection Hu as Ep Eg Es _.
    assert (Hdu : population_in_domain (population u)) by (by rewrite Ep).
    assert (Hmu : first_maximum (population u) (best_genome u) (best_score u))
      by (by rewrite Ep, Eg, Es).
    injection Ht as -> -> -> _.
    destruct (wraps s); [by apply sequence_end_valid | done]. }
  destruct Hvalid as [Hd Hm]. split; [done | split; [done|]].
  pose proof (tick_control inp s) as H. unfold control_of in H.
  injection H as -> _ _ _ _ _ _ _.
  destruct (wraps_spec s Hstep) as [_ ->].
  unfold NUM_STEPS. apply Z.mod_pos_bound. lia.
Qed.

Lemma loop_healthy inp s : healthy s → healthy (exec (loop inp) s).
Proof.
  intros H. rewrite loop_effect.
  assert (H1 : healthy (exec (updateControl inp) s))
    by (by rewrite updateControl_effect).
  destruct (due inp s); [by apply tick_healthy | done].
Qed.

(** X11. Once the population is in-domain, the best genome and score are
    the first maximum of the population and the step index is within the
    64 steps, every pass of [loop()] keeps it so, whatever the clock, the
    tempo pin and the buttons do. *)
Theorem run_keeps_the_state_healthy inputs s :
  healthy s → healthy (exec (run inputs) s).
Proof.
  revert s. induction inputs as [|inp rest IH]; intros s H; [done|].
  cbn [run]. rewrite exec_seq. apply IH. by apply loop_healthy.
Qed.

(** X12. [setup()] establishes that state from whatever the memory held:
    the population is in-domain, the best genome is its first maximum,
    the step index is 0, both latches and the beat are off, the last step
    time is the clock, and the only population calls made are
    [initPopulation] followed by [evaluatePopulation]. *)
Theorem setup_establishes_the_state seeded_rng inp s :
  population_shape (population s) →
  let t := exec (setup seeded_rng inp) s in
  healthy t
  ∧ current_step t = 0 ∧ like_pressed t = false ∧ dislike_pressed t = false
  ∧ beat_on t = false ∧ last_time t = to_ulong (millis inp)
  ∧ step_time t = step_time_of_bpm (bpm_of_reading (analog_bpm inp))
  ∧ emitted (setup seeded_rng inp) s = [CallInit; CallEvaluate].
Proof.
  intros Hshape t. unfold t, emitted, setup.
  rewrite (exec_seq (modify (with_rng seeded_rng))).
  set (s0 := exec (modify (with_rng seeded_rng)) s).
  assert (Hs0 : population_shape (population s0)) by exact Hshape.
  assert (Htr0 : trace s0 = trace s) by reflexivity.
  rewrite <- Htr0. clearbody s0. clear Htr0.
  rewrite (exec_seq initPopulation), (exec_seq evaluatePopulation).
  rewrite <- (exec_seq initPopulation evaluatePopulation s0).
  destruct (evaluate_after initPopulation s0 (initPopulation_in_domain s0 Hs0))
    as [Hdom Hmax].
  pose proof (reset_control s0) as Hc.
  revert Hdom Hmax Hc.
  generalize (exec (initPopulation ;; evaluatePopulation) s0). intros s2 Hdom Hmax Hc.
  unfold control_of in Hc. cbn [trace with_trace] in Hc.
  injection Hc as _ _ _ _ _ _ _ Htr.
  destruct s2 as [p bg bs cs cb st lt bo lp dp rg tr].
  cbn [trace population best_genome best_score] in *.
  unfold healthy. run_norm. subst tr.
  rewrite drop_app_length.
  split_and!; done.
Qed.

Lemma healthy_evaluated s :
  population_in_domain (population s) →
  0 ≤ current_step s < Z.of_nat NUM_STEPS →
  healthy (exec evaluatePopulation s).
Proof.
  intros Hdom Hstep.
  destruct (evaluatePopulation_frame s) as (Hp & _ & Hc).
  pose proof (evaluatePopulation_prefix s Hdom) as Hmax. cbv zeta in Hmax.
  unfold healthy. rewrite Hp. split_and!; try done;
    unfold control_of in Hc; injection Hc as -> _ _ _ _ _ _ _; simpl; lia.
Qed.

Lemma run_keeps_the_state_healthy_witness :
  healthy (exec (run traversal_with_press) (exec evaluatePopulation seeded)).
Proof.
  apply (run_keeps_the_state_healthy traversal_with_press
           (exec evaluatePopulation seeded)).
  apply healthy_evaluated.
  - apply (bool_decide_unpack _). vm_compute. exact I.
  - vm_compute. split; congruence.
Defined.

Lemma setup_establishes_the_state_witness :
  healthy started
  ∧ current_step started = 0 ∧ like_pressed started = false
  ∧ dislike_pressed started = false
  ∧ beat_on started = false
  ∧ last_time started = to_ulong (millis (mkInputs 0 0 false false))
  ∧ step_time started
    = step_time_of_bpm (bpm_of_reading (analog_bpm (mkInputs 0 0 false false)))
  ∧ emitted (setup (mkRandom sample_raw 0) (mkInputs 0 0 false false)) power_on
    = [CallInit; CallEvaluate].
Proof.
  apply (setup_establishes_the_state (mkRandom sample_raw 0)
           (mkInputs 0 0 false false) power_on).
  apply (bool_decide_unpack _). vm_compute. exact I.
Defined.

(** ** What is played *)

(** X14. In that state [playStep] reads inside the best genome and hands
    over an in-domain step: the index is below 64, the four bytes are in
    their domains, and the MIDI number [note + octave * 12] given to
    [mtof] fits its [byte] parameter unchanged and is at most 47. *)
Theorem played_step_is_in_domain s :
  healthy s →
  let k := Z.to_nat (current_step s) in
  let n := note (best_genome s) !!! k in
  let o := octave (best_genome s) !!! k in
  (k < NUM_STEPS)%nat
  ∧ gene_in_domain (gene_at (best_genome s) k)
  ∧ midi_number n o = n + o * 12
  ∧ 0 ≤ midi_number n o ≤ 47.
Proof.
  intros ([_ Hall] & (i & Hi & _) & Hstep) k n o.
  assert (Hk : (k < NUM_STEPS)%nat) by (unfold k, NUM_STEPS in *; lia).
  pose proof (Forall_lookup_1 _ _ _ _ Hall Hi) as (Hn & Ho & Hw & Hg).
  pose proof (values_in_lookup _ _ _ Hn Hk).
  pose proof (values_in_lookup _ _ _ Ho Hk).
  pose proof (values_in_lookup _ _ _ Hw Hk).
  pose proof (values_in_lookup _ _ _ Hg Hk).
  assert (Hm : midi_number n o = n + o * 12).
  { unfold midi_number, NUM_NOTES, n, o.
    rewrite to_int_small by lia. apply to_byte_small. lia. }
  split_and!; [done | by unfold gene_in_domain, gene_at | done | | ];
    rewrite Hm; unfold n, o; lia.
Qed.

Lemma played_step_is_in_domain_witness :
  let s := exec evaluatePopulation seeded in
  let k := Z.to_nat (current_step s) in
  let n := note (best_genome s) !!! k in
  let o := octave (best_genome s) !!! k in
  (k < NUM_STEPS)%nat
  ∧ gene_in_domain (gene_at (best_genome s) k)
  ∧ midi_number n o = n + o * 12
  ∧ 0 ≤ midi_number n o ≤ 47.
Proof.
  apply (played_step_is_in_domain (exec evaluatePopulation seeded)).
  apply healthy_evaluated.
  - apply (bool_decide_unpack _). vm_compute. exact I.
  - vm_compute. split; congruence.
Defined.

Lemma loop_due_step inp s :
  due inp s = true → 0 ≤ current_step s < Z.of_nat NUM_STEPS →
  ∃ evs, trace (exec (loop inp) s) = trace s ++ evs
       ∧ List.filter is_note evs
         = [note_event (best_genome s) (Z.to_nat (current_step s))]
       ∧ current_step (exec (loop inp) s) = (current_step s + 1) mod 64
       ∧ (current_step s ≠ 63 → best_genome (exec (loop inp) s) = best_genome s).
Proof.
  intros Hdue Hstep. rewrite loop_effect, Hdue.
  set (s1 := exec (updateControl inp) s).
  assert (E : data_of s1 = data_of s ∧ current_step s1 = current_step s
              ∧ trace s1 = trace s)
    by (unfold s1; by rewrite updateControl_effect).
  destruct E as (Ed & Ec & Et).
  assert (Hstep1 : 0 ≤ current_step s1 < Z.of_nat NUM_STEPS) by (by rewrite Ec).
  pose proof (tick_control inp s1) as H. unfold control_of in H.
  injection H as Hcs _ _ _ _ _ _ Htr.
  destruct (wraps_spec s1 Hstep1) as [Hw Hmod].
  eexists. split_and!.
  - rewrite Htr, Et. reflexivity.
  - assert (Eg : played s1
                 = note_event (best_genome s) (Z.to_nat (current_step s))).
    { unfold played, note_event. unfold data_of in Ed.
      injection Ed as _ -> _ _. by rewrite Ec. }
    rewrite Eg.
    destruct (wraps s1); [destruct (like_pressed s1); [|destruct (dislike_pressed s1)]|];
      reflexivity.
  - rewrite Hcs, Hmod, Ec. reflexivity.
  - intros Hne. destruct (tick_data inp s1) as (u & Hu & Ht).
    rewrite Hw in Ht.
    destruct (Z.eqb_spec (current_step s1) 63) as [E|_]; [lia|].
    unfold data_of in *. congruence.
Qed.

Lemma run_notes inputs :
  ∀ s k,
    current_step s = Z.of_nat k → (k < NUM_STEPS)%nat →
    (k + length inputs ≤ NUM_STEPS)%nat → all_due inputs s = true →
    ∃ evs, trace (exec (run inputs) s) = trace s ++ evs
         ∧ List.filter is_note evs
           = map (note_event (best_genome s)) (seq k (length inputs))
         ∧ current_step (exec (run inputs) s)
           = Z.of_nat ((k + length inputs) mod 64).
Proof.
  induction inputs as [|inp rest IH]; intros s k Hk Hlt Hlen Hdue.
  - exists []. unfold NUM_STEPS in *. cbn [run length]. split_and!.
    + by rewrite app_nil_r.
    + reflexivity.
    + rewrite Nat.add_0_r, Nat.mod_small by lia. exact Hk.
  - cbn [all_due] in Hdue. apply andb_prop in Hdue as [Hd Hrest].
    cbn [length] in Hlen. unfold NUM_STEPS in *.
    destruct (loop_due_step inp s Hd) as (e1 & Htr1 & Hn1 & Hc1 & Hb1);
      [unfold NUM_STEPS; lia|].
    cbn [run]. rewrite exec_seq.
    set (s' := exec (loop inp) s) in *.
    rewrite Hk, Nat2Z.id in Hn1.
    destruct (decide (k = 63%nat)) as [->|Hne].
    + (* the wrapping pass is the last of the run *)
      assert (rest = []) by (destruct rest; [done | simpl in Hlen; lia]). subst rest.
      exists e1. change (exec (run []) s') with s'.
      cbn [length seq map]. split_and!; [done | done |].
      rewrite Hc1, Hk. reflexivity.
    + assert (Hk' : current_step s' = Z.of_nat (S k)).
      { rewrite Hc1, Hk, Z.mod_small; lia. }
      destruct (IH s' (S k) Hk' ltac:(lia) ltac:(lia) Hrest)
        as (e2 & Htr2 & Hn2 & Hc2).
      rewrite Hb1 in Hn2 by lia.
      exists (e1 ++ e2). split_and!.
      * by rewrite Htr2, Htr1, app_assoc.
      * rewrite List.filter_app, Hn1, Hn2. reflexivity.
      * rewrite Hc2. cbn [length].
        by replace (S k + length rest)%nat with (k + S (length rest))%nat by lia.
Qed.

(** X13. A traversal plays the best genome it started with, in order and
    in full.  From step 0, in 64 due passes of [loop()], whatever the
    buttons and the tempo pin do meanwhile, the notes handed to the audio
    side are steps 0, 1, ..., 63 of the best genome as it was at the
    start, and the step index is back at 0 afterwards. *)
Theorem traversal_plays_the_best_genome inputs s :
  current_step s = 0 → length inputs = NUM_STEPS → all_due inputs s = true →
  notes_of (run inputs) s = map (note_event (best_genome s)) (seq 0 NUM_STEPS)
  ∧ current_step (exec (run inputs) s) = 0.
Proof.
  intros Hstep Hlen Hdue.
  destruct (run_notes inputs s 0%nat Hstep) as (evs & Htr & Hn & Hc);
    [unfold NUM_STEPS; lia | lia | done |].
  unfold notes_of, emitted. rewrite Htr, drop_app_length, Hn, Hc, Hlen.
  split; reflexivity.
Qed.

Lemma traversal_plays_the_best_genome_witness :
  notes_of (run traversal_with_press) started
  = map (note_event (best_genome started)) (seq 0 NUM_STEPS)
  ∧ current_step (exec (run traversal_with_press) started) = 0.
Proof.
  apply (traversal_plays_the_best_genome traversal_with_press started).
  - vm_compute. reflexivity.
  - reflexivity.
  - vm_compute. reflexivity.
Defined.

(** ** Mutation and selection on arbitrary bytes *)

Lemma mutation_of_store (field : nat → Z → Genome → Genome) hi j v g0 g j' :
  (field = store_note ∧ hi = 12 ∨ field = store_octave ∧ hi = 4
   ∨ field = store_waveform ∧ hi = 4 ∨ field = store_gate ∧ hi = 2) →
  0 ≤ v < hi → mutation_of g0 g j' → mutation_of g0 (field j v g) j'.
Proof.
  intros Hfield Hv (H1 & H2 & H3 & H4).
  assert (Hins : ∀ (l : list Z) old,
            kept_or_drawn hi old (l !!! j') →
            kept_or_drawn hi old (<[j := to_byte v]> l !!! j')).
  { intros l old Hold. rewrite list_lookup_total_insert.
    case_decide; [|done]. right. rewrite to_byte_small; lia. }
  destruct Hfield as [[-> ->]|[[-> ->]|[[-> ->]|[-> ->]]]];
    unfold mutation_of; simpl; split_and!; auto.
Qed.

Lemma mutateField_mutation rate hi field i j s0 t :
  (field = store_note ∧ hi = 12 ∨ field = store_octave ∧ hi = 4
   ∨ field = store_waveform ∧ hi = 4 ∨ field = store_gate ∧ hi = 2) →
  (∀ i' j', mutation_of (population s0 !!! i') (population t !!! i') j') →
  ∀ i' j', mutation_of (population s0 !!! i')
             (population (exec (mutateField rate hi field i j) t) !!! i') j'.
Proof.
  intros Hfield H i' j'.
  assert (Hhi : 0 < hi) by (destruct Hfield as [[_ ->]|[[_ ->]|[[_ ->]|[_ ->]]]]; lia).
  destruct (mutateField_cases rate hi field i j t Hhi)
    as [r [-> | (v & Hv & ->)]]; [apply H|].
  rewrite population_update, list_lookup_total_alter.
  case_decide as Hd; [|apply H]. destruct Hd as [-> _].
  by apply (mutation_of_store field hi).
Qed.

(** X15. Mutation never corrupts a byte.  Whatever the population holds
    and whatever the rate, after [mutatePopulation] each of the four
    bytes of each step of each genome is either the byte that was there
    or a value of the field's domain. *)
Theorem mutation_keeps_or_draws rate s i j :
  mutation_of (population s !!! i)
    (population (exec (mutatePopulation_at rate) s) !!! i) j.
Proof.
  revert i j. unfold mutatePopulation_at. rewrite exec_seq, emit_effect.
  set (P := λ t : Sketch,
         ∀ i j, mutation_of (population s !!! i) (population t !!! i) j).
  apply (for_preserves P).
  - intros i j. unfold mutation_of, kept_or_drawn. simpl. tauto.
  - intros i t Ht. apply (for_preserves P); [exact Ht|].
    intros j u Hu. unfold P, mutateGene. rewrite !exec_seq.
    apply mutateField_mutation; [tauto|].
    apply mutateField_mutation; [tauto|].
    apply mutateField_mutation; [tauto|].
    apply mutateField_mutation; [tauto|]. exact Hu.
Qed.

(** X16. The starting value -9999 of [evaluatePopulation] is a floor, not
    a guard: when no member of the population scores above -9999 (which
    needs bytes outside the value domains), the call leaves [best_genome]
    as it was and [best_score] at -9999. *)
Theorem evaluatePopulation_keeps_stale_best s :
  (∀ k, (k < POP_SIZE)%nat → evaluateGenome (population s !!! k) ≤ -9999) →
  best_genome (exec evaluatePopulation s) = best_genome s
  ∧ best_score (exec evaluatePopulation s) = -9999.
Proof.
  intros Hlow. unfold evaluatePopulation. rewrite !exec_seq.
  set (s1 := exec (modify _) (exec (emit _) s)).
  pose (Inv := λ (_ : nat) (t : Sketch),
    population t = population s ∧ best_genome t = best_genome s
    ∧ best_score t = -9999).
  assert (H : Inv (0 + POP_SIZE)%nat (exec (for_ 0 POP_SIZE evaluateMember) s1)).
  { apply for_invariant; [by unfold Inv|].
    intros k t Hk (Hp & Hg & Hs). rewrite evaluateMember_effect. cbv zeta.
    rewrite Hp, Hs.
    destruct (Z.ltb_spec (-9999) (evaluateGenome (population s !!! k))) as [Hlt|_].
    - specialize (Hlow k ltac:(lia)). lia.
    - by unfold Inv. }
  destruct H as (_ & Hg & Hs). by split.
Qed.

Lemma evaluatePopulation_keeps_stale_best_witness :
  best_genome (exec evaluatePopulation shrill) = best_genome shrill
  ∧ best_score (exec evaluatePopulation shrill) = -9999.
Proof.
  apply (evaluatePopulation_keeps_stale_best shrill).
  intros k Hk.
  assert (Hg : population shrill !!! k = shrill_genome).
  { unfold shrill, POP_SIZE in *. cbn [population with_population].
    apply list_lookup_total_correct, lookup_replicate_2. lia. }
  rewrite Hg. vm_compute. congruence.
Defined.

(** ** Undefined operations of the scoring function *)

Lemma int_exact_small z : -32768 ≤ z ≤ 32767 → Strict.int_exact z = Some z.
Proof.
  intros H. unfold Strict.int_exact.
  destruct (Z.leb_spec (-32768) z), (Z.leb_spec z 32767); simpl; (done || lia).
Qed.

Lemma int_exact_Some z t : Strict.int_exact z = Some t → t = z.
Proof. unfold Strict.int_exact. destruct (_ && _); congruence. Qed.

Lemma strict_c_abs_small z :
  -32767 ≤ z ≤ 32767 → Strict.c_abs z = Some (Z.abs z).
Proof.
  intros H. unfold Strict.c_abs. destruct (Z.ltb_spec 0 z).
  - f_equal. lia.
  - rewrite int_exact_small by lia. f_equal. lia.
Qed.

(** One step with a table access that yields the byte [cell]: every
    [int] operation is exact, and the score moves by the cell minus the
    penalties of the step. *)
Lemma strict_step read g i score cell :
  genome_in_domain g → (i < NUM_STEPS)%nat →
  -60 * Z.of_nat i ≤ score ≤ 255 * Z.of_nat i →
  read (chord_type_at i) (scale_degree_at g i) = Some cell → 0 ≤ cell ≤ 255 →
  let penalty :=
    JAZZ_TABLE_read (chord_type_at i) (scale_degree_at g i) - step_delta g i in
  Strict.evaluateStep read g i score = Some (score + cell - penalty)
  ∧ 0 ≤ penalty ≤ 60.
Proof.
  intros Hg Hi Hs Hread Hcell penalty. pose proof Hg as (Hn & Ho & Hw & Hga).
  assert (Hi' : (i - 1 < NUM_STEPS)%nat) by lia.
  pose proof (values_in_lookup _ _ _ Hn Hi).
  pose proof (values_in_lookup _ _ _ Ho Hi).
  pose proof (values_in_lookup _ _ _ Hw Hi).
  pose proof (values_in_lookup _ _ _ Hn Hi').
  pose proof (values_in_lookup _ _ _ Ho Hi').
  pose proof (chord_root_at_range i Hi).
  unfold NUM_STEPS in Hi.
  unfold penalty, Strict.evaluateStep, step_delta, interval_at.
  rewrite (int_exact_small (note g !!! i - chord_root_at i)) by lia.
  cbn [mbind option_bind].
  rewrite (int_exact_small (_ + NUM_NOTES)) by (unfold NUM_NOTES; lia).
  cbn [mbind option_bind].
  change (to_byte (Z.rem (note g !!! i - chord_root_at i + NUM_NOTES) NUM_NOTES))
    with (scale_degree_at g i).
  unfold NUM_NOTES.
  rewrite Hread. cbn [mbind option_bind].
  rewrite (int_exact_small (score + cell)) by lia. cbn [mbind option_bind].
  rewrite (int_exact_small (octave g !!! i - 1)) by lia. cbn [mbind option_bind].
  rewrite strict_c_abs_small by lia. cbn [mbind option_bind].
  rewrite (int_exact_small (_ * 2)) by lia. cbn [mbind option_bind].
  rewrite (int_exact_small (score + cell - _)) by lia. cbn [mbind option_bind].
  rewrite (int_exact_small (waveform g !!! i - 1)) by lia. cbn [mbind option_bind].
  rewrite strict_c_abs_small by lia. cbn [mbind option_bind].
  rewrite (int_exact_small (_ * 2)) by lia. cbn [mbind option_bind].
  rewrite (int_exact_small (score + cell - _ - _)) by lia. cbn [mbind option_bind].
  destruct (0 <? i)%nat.
  - rewrite (int_exact_small (octave g !!! i * 12)) by lia. cbn [mbind option_bind].
    rewrite (int_exact_small (note g !!! i + _)) by lia. cbn [mbind option_bind].
    rewrite (int_exact_small (note g !!! i + _ - _)) by lia. cbn [mbind option_bind].
    rewrite (int_exact_small (octave g !!! (i - 1)%nat * 12)) by lia.
    cbn [mbind option_bind].
    rewrite (int_exact_small (note g !!! i + _ - _ - _)) by lia.
    cbn [mbind option_bind].
    rewrite strict_c_abs_small by lia. cbn [mbind option_bind].
    rewrite (int_exact_small (score + cell - _ - _ - _)) by lia.
    cbn [mbind option_bind].
    destruct (_ && _).
    + rewrite int_exact_small by lia. split; [f_equal|]; lia.
    + split; [f_equal|]; lia.
  - split; [f_equal|]; lia.
Qed.

Lemma strict_step_reads read g i score :
  is_Some (Strict.evaluateStep read g i score) →
  is_Some (read (chord_type_at i) (scale_degree_at g i)).
Proof.
  unfold Strict.evaluateStep.
  destruct (Strict.int_exact (note g !!! i - chord_root_at i)) as [t|] eqn:E;
    cbn [mbind option_bind]; [|by intros [? ?]].
  apply int_exact_Some in E as ->.
  destruct (Strict.int_exact (_ + NUM_NOTES)) as [t|] eqn:E;
    cbn [mbind option_bind]; [|by intros [? ?]].
  apply int_exact_Some in E as ->.
  change (to_byte (Z.rem (note g !!! i - chord_root_at i + NUM_NOTES) NUM_NOTES))
    with (scale_degree_at g i).
  destruct (read (chord_type_at i) (scale_degree_at g i)); [eauto|].
  cbn [mbind option_bind]. by intros [? ?].
Qed.

Lemma strict_loop read g count :
  genome_in_domain g →
  ∀ lo score,
    (lo + count ≤ NUM_STEPS)%nat →
    -60 * Z.of_nat lo ≤ score ≤ 255 * Z.of_nat lo →
    (∀ i, (lo ≤ i < lo + count)%nat →
       ∃ cell, read (chord_type_at i) (scale_degree_at g i) = Some cell
               ∧ 0 ≤ cell ≤ 255) →
    ∃ v, Strict.for_loop lo count (Strict.evaluateStep read g) score = Some v
         ∧ -60 * Z.of_nat (lo + count) ≤ v ≤ 255 * Z.of_nat (lo + count)
         ∧ ((∀ i, (lo ≤ i < lo + count)%nat →
               read (chord_type_at i) (scale_degree_at g i)
               = Some (JAZZ_TABLE_read (chord_type_at i) (scale_degree_at g i)))
            → v = score + sum_deltas g lo count).
Proof.
  intros Hg. induction count as [|c IH]; intros lo score Hle Hs Hreads.
  - exists score. cbn [Strict.for_loop sum_deltas].
    rewrite Nat.add_0_r. split_and!; [done | lia | lia | intros; lia].
  - destruct (Hreads lo ltac:(lia)) as (cell & Hread & Hcell).
    destruct (strict_step read g lo score cell Hg ltac:(lia) Hs Hread Hcell)
      as [Hstep Hpen].
    cbn [Strict.for_loop]. rewrite Hstep. cbn [mbind option_bind].
    destruct (IH (S lo) (score + cell
                - (JAZZ_TABLE_read (chord_type_at lo) (scale_degree_at g lo)
                   - step_delta g lo)))
      as (v & Hv & Hrange & Hagree);
      [lia | lia | intros i Hi; apply Hreads; lia |].
    exists v. split_and!; [done | lia | lia |].
    intros Hflat. rewrite Hagree by (intros i Hi; apply Hflat; lia).
    pose proof (Hflat lo ltac:(lia)) as Hlo. rewrite Hread in Hlo.
    injection Hlo as ->. cbn [sum_deltas]. lia.
Qed.

Lemma strict_loop_reads read g count :
  ∀ lo score,
    is_Some (Strict.for_loop lo count (Strict.evaluateStep read g) score) →
    ∀ i, (lo ≤ i < lo + count)%nat →
      is_Some (read (chord_type_at i) (scale_degree_at g i)).
Proof.
  induction count as [|c IH]; intros lo score Hsome i Hi; [lia|].
  cbn [Strict.for_loop] in Hsome.
  destruct (Strict.evaluateStep read g lo score) as [s'|] eqn:Hstep;
    [|by destruct Hsome].
  cbn [mbind option_bind] in Hsome.
  destruct (decide (i = lo)) as [->|Hne].
  - apply (strict_step_reads read g lo score). by rewrite Hstep.
  - apply (IH (S lo) s' Hsome). lia.
Qed.

(** X1. On an in-domain genome no signed [int] operation of
    [evaluateGenome] overflows a 16-bit [int], whatever bytes the table
    accesses return: checked operation by operation, the evaluation is
    defined and its result lies between -3840 and 16320; and with the
    bytes the model reads from the table the checked result is the value
    of [evaluateGenome]. *)
Theorem evaluateGenome_never_overflows g :
  genome_in_domain g →
  (∀ read,
     (∀ c d, ∃ cell, read c d = Some cell ∧ 0 ≤ cell ≤ 255) →
     ∃ v, Strict.evaluateGenome read g = Some v ∧ -3840 ≤ v ≤ 16320)
  ∧ Strict.evaluateGenome flat_read g = Some (evaluateGenome g).
Proof.
  intros Hg. split.
  - intros read Hread.
    destruct (strict_loop read g NUM_STEPS Hg 0%nat 0)
      as (v & Hv & Hrange & _); [lia | lia | intros i _; apply Hread |].
    exists v. split; [exact Hv|]. unfold NUM_STEPS in Hrange. lia.
  - destruct (strict_loop flat_read g NUM_STEPS Hg 0%nat 0)
      as (v & Hv & _ & Hagree); [lia | lia | |].
    { intros i _. eexists. split; [reflexivity|].
      pose proof (JAZZ_TABLE_read_range (chord_type_at i) (scale_degree_at g i)).
      lia. }
    unfold Strict.evaluateGenome. rewrite Hv, Hagree by done.
    by rewrite evaluateGenome_sum.
Qed.

Lemma evaluateGenome_never_overflows_witness :
  (∀ read,
     (∀ c d, ∃ cell, read c d = Some cell ∧ 0 ≤ cell ≤ 255) →
     ∃ v, Strict.evaluateGenome read regression_genome = Some v
          ∧ -3840 ≤ v ≤ 16320)
  ∧ Strict.evaluateGenome flat_read regression_genome
    = Some (evaluateGenome regression_genome).
Proof.
  apply (evaluateGenome_never_overflows regression_genome).
  apply (bool_decide_unpack _). vm_compute. exact I.
Defined.

(** X2. With the out-of-row table access and signed overflow both taken
    as undefined, [evaluateGenome] on an in-domain genome is defined
    exactly when the scale degree of every step is below 7 (the note is
    0 to 6 semitones above the root of its chord); and whenever it is
    defined, its value is the one [evaluateGenome] returns in the
    model. *)
Theorem evaluateGenome_defined_iff_in_row g :
  genome_in_domain g →
  (is_Some (Strict.evaluateGenome JAZZ_TABLE_at g)
   ↔ ∀ i, (i < NUM_STEPS)%nat → scale_degree_at g i < 7)
  ∧ (∀ v, Strict.evaluateGenome JAZZ_TABLE_at g = Some v → v = evaluateGenome g).
Proof.
  intros Hg.
  assert (Hrow : ∀ i, (i < NUM_STEPS)%nat → scale_degree_at g i < 7 →
            JAZZ_TABLE_at (chord_type_at i) (scale_degree_at g i)
            = Some (JAZZ_TABLE_read (chord_type_at i) (scale_degree_at g i))).
  { intros i Hi Hd.
    destruct (table_access_shape g i Hg Hi) as (Hc & _ & Hiff).
    destruct (proj2 Hiff Hd) as [v Hv]. rewrite Hv. f_equal. symmetry.
    pose proof (scale_degree_at_range g i Hg Hi).
    apply JAZZ_TABLE_read_at; (done || lia). }
  assert (Hdef : (∀ i, (i < NUM_STEPS)%nat → scale_degree_at g i < 7) →
            Strict.evaluateGenome JAZZ_TABLE_at g = Some (evaluateGenome g)).
  { intros Hall.
    destruct (strict_loop JAZZ_TABLE_at g NUM_STEPS Hg 0%nat 0)
      as (v & Hv & _ & Hagree); [lia | lia | |].
    { intros i Hi. eexists. split; [apply Hrow; [lia | apply Hall; lia]|].
      pose proof (JAZZ_TABLE_read_range (chord_type_at i) (scale_degree_at g i)).
      lia. }
    unfold Strict.evaluateGenome. rewrite Hv, Hagree.
    - by rewrite evaluateGenome_sum.
    - intros i Hi. apply Hrow; [lia | apply Hall; lia]. }
  assert (Hneed : is_Some (Strict.evaluateGenome JAZZ_TABLE_at g) →
            ∀ i, (i < NUM_STEPS)%nat → scale_degree_at g i < 7).
  { intros Hsome i Hi.
    destruct (table_access_shape g i Hg Hi) as (_ & _ & Hiff). apply Hiff.
    apply (strict_loop_reads JAZZ_TABLE_at g NUM_STEPS 0%nat 0 Hsome). lia. }
  split; [split|].
  - exact Hneed.
  - intros Hall. rewrite (Hdef Hall). eauto.
  - intros v Hv.
    assert (Hall := Hneed ltac:(by rewrite Hv)).
    rewrite (Hdef Hall) in Hv. by injection Hv.
Qed.

Lemma evaluateGenome_defined_iff_in_row_witness :
  is_Some (Strict.evaluateGenome JAZZ_TABLE_at roots_genome)
  ∧ ¬ is_Some (Strict.evaluateGenome JAZZ_TABLE_at regression_genome)
  ∧ (∀ v, Strict.evaluateGenome JAZZ_TABLE_at roots_genome = Some v
          → v = evaluateGenome roots_genome).
Proof.
  assert (Hroots : genome_in_domain roots_genome)
    by (apply (bool_decide_unpack _); vm_compute; exact I).
  assert (Hregr : genome_in_domain regression_genome)
    by (apply (bool_decide_unpack _); vm_compute; exact I).
  split_and!.
  - apply (proj1 (evaluateGenome_defined_iff_in_row roots_genome Hroots)).
    intros i Hi. unfold NUM_STEPS in Hi.
    do 64 (destruct i as [|i]; [vm_compute; reflexivity|]). lia.
  - intros Hsome.
    pose proof (proj1 (proj1 (evaluateGenome_defined_iff_in_row
                                regression_genome Hregr)) Hsome 48%nat
                  ltac:(unfold NUM_STEPS; lia)) as H.
    vm_compute in H. discriminate H.
  - apply (proj2 (evaluateGenome_defined_iff_in_row roots_genome Hroots)).
Defined.

(** ** The mutation rule *)

Lemma alter_as_insert (f : Genome → Genome) i (l : list Genome) :
  (i < length l)%nat → alter f i l = <[i := f (l !!! i)]> l.
Proof.
  revert i. induction l as [|g l IH]; intros [|i] Hi; simpl in *; try lia.
  - reflexivity.
  - f_equal. apply IH. lia.
Qed.

Lemma mutateField_on_effect rate howbig field i j s :
  0 < howbig → (i < length (population s))%nat →
  exec (mutateField rate howbig field i j) s =
  with_rng (snd (mutateField_on rate howbig field j (population s !!! i) (rng s)))
    (with_population
       (<[i := fst (mutateField_on rate howbig field j (population s !!! i) (rng s))]>
          (population s)) s).
Proof.
  intros Hbig Hi. unfold mutateField, mutateField_on.
  rewrite exec_bind, random_effect by done. cbn [fst snd].
  destruct (below_rate _ rate); cbn [when fst snd].
  - rewrite draw_then_assign by lia.
    destruct s as [p bg bs cs cb st lt bo lp dp [rw cu] tr]. sketch_norm.
    rewrite alter_as_insert by exact Hi. rewrite !N.add_assoc. reflexivity.
  - rewrite list_insert_id
      by (apply list_lookup_lookup_total_lt; exact Hi).
    destruct s as [p bg bs cs cb st lt bo lp dp [rw cu] tr]. reflexivity.
Qed.

Lemma mutateGene_on_effect rate i j s :
  (i < length (population s))%nat →
  exec (mutateGene rate i j) s =
  with_rng (snd (mutateGene_on rate j (population s !!! i) (rng s)))
    (with_population
       (<[i := fst (mutateGene_on rate j (population s !!! i) (rng s))]>
          (population s)) s).
Proof.
  intros Hi. destruct s as [p bg bs cs cb st lt bo lp dp r tr].
  cbn [population rng] in *.
  unfold mutateGene, mutateGene_on.
  rewrite exec_seq, mutateField_on_effect by done. cbn [population rng].
  destruct (mutateField_on rate NUM_NOTES store_note j (p !!! i) r) as [g1 r1].
  sketch_norm. cbn [fst snd].
  rewrite exec_seq, mutateField_on_effect
    by (done || (cbn [population]; by rewrite length_insert)).
  cbn [population rng].
  rewrite list_lookup_total_insert_eq by done.
  destruct (mutateField_on rate 4 store_octave j g1 r1) as [g2 r2].
  sketch_norm. cbn [fst snd]. rewrite list_insert_insert_eq.
  rewrite exec_seq, (mutateField_on_effect rate 4 store_waveform)
    by (done || (cbn [population]; by rewrite length_insert)).
  cbn [population rng].
  rewrite list_lookup_total_insert_eq by done.
  destruct (mutateField_on rate 4 store_waveform j g2 r2) as [g3 r3].
  sketch_norm. cbn [fst snd]. rewrite list_insert_insert_eq.
  rewrite mutateField_on_effect
    by (done || (cbn [population]; by rewrite length_insert)).
  cbn [population rng].
  rewrite list_lookup_total_insert_eq by done.
  sketch_norm. rewrite list_insert_insert_eq. reflexivity.
Qed.

(** On one genome, [mutateGene] changes gene [j] as the rule says and
    nothing else. *)
Lemma mutateGene_on_rule rate j g r :
  lengths_ok g → (j < NUM_STEPS)%nat →
  snd (mutateGene_on rate j g r)
  = snd (MutationRule.mutate_gene rate (gene_at g j) r)
  ∧ gene_at (fst (mutateGene_on rate j g r)) j
    = fst (MutationRule.mutate_gene rate (gene_at g j) r)
  ∧ (∀ j', j' ≠ j → gene_at (fst (mutateGene_on rate j g r)) j' = gene_at g j')
  ∧ lengths_ok (fst (mutateGene_on rate j g r)).
Proof.
  destruct g as [n o w ga]. intros (H1 & H2 & H3 & H4) Hj.
  cbn [note octave waveform gate] in *.
  pose proof (λ r k, random_at_range r 12 k ltac:(lia)) as R12.
  pose proof (λ r k, random_at_range r 4 k ltac:(lia)) as R4.
  pose proof (λ r k, random_at_range r 2 k ltac:(lia)) as R2.
  assert (Hb : ∀ r hi k, 0 ≤ random_at r hi k < hi → hi ≤ 256 →
            to_byte (random_at r hi k) = random_at r hi k)
    by (intros; apply to_byte_small; lia).
  unfold mutateGene_on, mutateField_on, MutationRule.mutate_gene,
    MutationRule.mutate_value, gene_at, lengths_ok, NUM_NOTES.
  cbn [note octave waveform gate].
  destruct (below_rate (random_at r 100 (cursor r)) rate);
    cbn [fst snd store_note note octave waveform gate];
    match goal with
    | |- context [below_rate (random_at ?q 100 (cursor ?q)) rate] =>
        destruct (below_rate (random_at q 100 (cursor q)) rate)
    end;
    cbn [fst snd store_octave note octave waveform gate];
    match goal with
    | |- context [below_rate (random_at ?q 100 (cursor ?q)) rate] =>
        destruct (below_rate (random_at q 100 (cursor q)) rate)
    end;
    cbn [fst snd store_waveform note octave waveform gate];
    match goal with
    | |- context [below_rate (random_at ?q 100 (cursor ?q)) rate] =>
        destruct (below_rate (random_at q 100 (cursor q)) rate)
    end;
    cbn [fst snd store_note store_octave store_waveform store_gate
         note octave waveform gate];
    (split_and!;
     [ reflexivity
     | rewrite ?list_lookup_total_insert_eq by lia;
       rewrite ?Hb by (auto || lia); reflexivity
     | intros j' Hne; by rewrite ?list_lookup_total_insert_ne by done
     | by rewrite ?length_insert
     | by rewrite ?length_insert
     | by rewrite ?length_insert
     | by rewrite ?length_insert ]).
Qed.

Lemma gene_number_at p i j :
  (j < NUM_STEPS)%nat →
  MutationRule.gene_number p (NUM_STEPS * i + j) = gene_at (p !!! i) j.
Proof.
  intros Hj. unfold MutationRule.gene_number.
  rewrite <- (Nat.div_unique (NUM_STEPS * i + j) NUM_STEPS i j Hj eq_refl).
  rewrite <- (Nat.mod_unique (NUM_STEPS * i + j) NUM_STEPS i j Hj eq_refl).
  reflexivity.
Qed.

(** The state after the first [k] genes have been visited. *)
Lemma mutateGene_advances rate p0 r0 i j t :
  (i < POP_SIZE)%nat → (j < NUM_STEPS)%nat →
  let Inv := λ (k : nat) (t : Sketch),
    rng t = MutationRule.generator_at rate p0 r0 k
    ∧ length (population t) = POP_SIZE
    ∧ Forall lengths_ok (population t)
    ∧ ∀ i' j', (i' < POP_SIZE)%nat → (j' < NUM_STEPS)%nat →
        gene_at (population t !!! i') j'
        = if (NUM_STEPS * i' + j' <? k)%nat
          then MutationRule.mutated_gene rate p0 r0 (NUM_STEPS * i' + j')
          else gene_at (p0 !!! i') j' in
  Inv (NUM_STEPS * i + j)%nat t →
  Inv (S (NUM_STEPS * i + j)) (exec (mutateGene rate i j) t).
Proof.
  intros Hi Hj Inv (Hrng & Hlen & Hok & Hgenes).
  assert (Hit : (i < length (population t))%nat) by lia.
  assert (Hgi : lengths_ok (population t !!! i))
    by (apply (Forall_lookup_total_1 _ _ _ Hok); lia).
  destruct (mutateGene_on_rule rate j (population t !!! i) (rng t) Hgi Hj)
    as (Hr & Hnew & Hother & Hok').
  assert (Hold : gene_at (population t !!! i) j
                 = MutationRule.gene_number p0 (NUM_STEPS * i + j)).
  { rewrite (Hgenes i j Hi Hj), Nat.ltb_irrefl. symmetry. by apply gene_number_at. }
  rewrite Hold in Hr, Hnew.
  rewrite mutateGene_on_effect by exact Hit. unfold Inv.
  rewrite !population_update, !rng_update. split_and!.
  - rewrite Hr, Hrng. reflexivity.
  - by rewrite length_insert.
  - apply Forall_insert; done.
  - intros i' j' Hi' Hj'. unfold NUM_STEPS in *.
    destruct (decide (i' = i)) as [->|Hne].
    + rewrite list_lookup_total_insert_eq by exact Hit.
      destruct (decide (j' = j)) as [->|Hnej].
      * rewrite Hnew, Hrng.
        destruct (Nat.ltb_spec (64 * i + j) (S (64 * i + j)));
          [reflexivity | lia].
      * rewrite Hother by done. rewrite (Hgenes i j' Hi' Hj').
        destruct (Nat.ltb_spec (64 * i + j') (64 * i + j)),
          (Nat.ltb_spec (64 * i + j') (S (64 * i + j))); (reflexivity || lia).
    + rewrite list_lookup_total_insert_ne by done. rewrite (Hgenes i' j' Hi' Hj').
      destruct (Nat.ltb_spec (64 * i' + j') (64 * i + j)),
        (Nat.ltb_spec (64 * i' + j') (S (64 * i + j))); (reflexivity || lia).
Qed.

Lemma mutatePopulation_at_rule rate s :
  length (population s) = POP_SIZE → Forall lengths_ok (population s) →
  rng (exec (mutatePopulation_at rate) s)
  = MutationRule.generator_at rate (population s) (rng s) (NUM_STEPS * POP_SIZE)
  ∧ ∀ i j, (i < POP_SIZE)%nat → (j < NUM_STEPS)%nat →
      gene_at (population (exec (mutatePopulation_at rate) s) !!! i) j
      = MutationRule.mutated_gene rate (population s) (rng s) (NUM_STEPS * i + j).
Proof.
  intros Hlen Hok. unfold mutatePopulation_at. rewrite exec_seq, emit_effect.
  set (s1 := with_trace _ s).
  change (population s) with (population s1). change (rng s) with (rng s1).
  change (population s1) with (population s) in Hlen, Hok.
  set (p0 := population s1). set (r0 := rng s1).
  pose (Inv := λ (k : nat) (t : Sketch),
    rng t = MutationRule.generator_at rate p0 r0 k
    ∧ length (population t) = POP_SIZE
    ∧ Forall lengths_ok (population t)
    ∧ ∀ i' j', (i' < POP_SIZE)%nat → (j' < NUM_STEPS)%nat →
        gene_at (population t !!! i') j'
        = if (NUM_STEPS * i' + j' <? k)%nat
          then MutationRule.mutated_gene rate p0 r0 (NUM_STEPS * i' + j')
          else gene_at (p0 !!! i') j').
  assert (H : Inv (NUM_STEPS * (0 + POP_SIZE))%nat
                (exec (for_ 0 POP_SIZE
                         (λ i, for_ 0 NUM_STEPS (λ j, mutateGene rate i j))) s1)).
  { apply (for_invariant (λ i t, Inv (NUM_STEPS * i)%nat t)).
    - unfold Inv. rewrite Nat.mul_0_r. split_and!; done.
    - intros i t Hi HI.
      replace (NUM_STEPS * S i)%nat with (NUM_STEPS * i + (0 + NUM_STEPS))%nat
        by lia.
      apply (for_invariant (λ j t, Inv (NUM_STEPS * i + j)%nat t)).
      + by rewrite Nat.add_0_r.
      + intros j u Hj HJ. rewrite Nat.add_succ_r.
        apply (mutateGene_advances rate p0 r0 i j u); [lia | lia | exact HJ]. }
  destruct H as (Hrng & _ & _ & Hgenes). split.
  - exact Hrng.
  - intros i j Hi Hj. rewrite (Hgenes i j Hi Hj).
    destruct (Nat.ltb_spec (NUM_STEPS * i + j) (NUM_STEPS * (0 + POP_SIZE)));
      [reflexivity|].
    unfold NUM_STEPS, POP_SIZE in *. lia.
Qed.

(** C8. Mutation is per field, by a trial at the stated rate, with the
    boundary behaviour.  The rate test [random(100) < rate * 100]
    succeeds on none of the 100 possible results at rate 0, on exactly
    one of them (the result 0) at the configured [MUT_RATE] of 0.01, and
    on all of them at rate 1.  For every state and every random sequence
    [mutatePopulation] computes the rule of [MutationRule] at [MUT_RATE]:
    every field of every step of every genome has a trial of its own, is
    replaced by the result of the following call of [random] on the
    field's domain when its trial succeeds and keeps its value
    otherwise, the calls being consumed in the order genome, step, field;
    the same holds with any other rate in place of [MUT_RATE].  With the
    rate set to 0 the population is left exactly as it was; with the rate
    set to 1 every one of the four members of every step of every genome
    is replaced by the result of its own call [random(12)], [random(4)],
    [random(4)], [random(2)] (step [j] of genome [i] uses calls
    [8 * (64 * i + j)] to [8 * (64 * i + j) + 7] counted from the start
    of the routine), a value of the field's domain. *)
Theorem mutation_is_per_field_bernoulli :
  (passing_draws 0 = [] ∧ passing_draws MUT_RATE = [0]
   ∧ passing_draws 1 = seqZ 0 100)
  ∧ (∀ s,
       population_shape (population s) →
       rng (exec mutatePopulation s)
       = MutationRule.generator_at MUT_RATE (population s) (rng s)
           (NUM_STEPS * POP_SIZE)
       ∧ ∀ i j, (i < POP_SIZE)%nat → (j < NUM_STEPS)%nat →
           gene_at (population (exec mutatePopulation s) !!! i) j
           = MutationRule.mutated_gene MUT_RATE (population s) (rng s)
               (NUM_STEPS * i + j))
  ∧ (∀ rate s,
       population_shape (population s) →
       rng (exec (mutatePopulation_at rate) s)
       = MutationRule.generator_at rate (population s) (rng s)
           (NUM_STEPS * POP_SIZE)
       ∧ ∀ i j, (i < POP_SIZE)%nat → (j < NUM_STEPS)%nat →
           gene_at (population (exec (mutatePopulation_at rate) s) !!! i) j
           = MutationRule.mutated_gene rate (population s) (rng s)
               (NUM_STEPS * i + j))
  ∧ (∀ s, population (exec (mutatePopulation_at 0) s) = population s)
  ∧ (∀ s i j,
       population_shape (population s) →
       (i < POP_SIZE)%nat → (j < NUM_STEPS)%nat →
       let d := mutation_draws (raw (rng s))
                  (8 * N.of_nat (NUM_STEPS * i + j) + cursor (rng s))%N in
       gene_at (population (exec (mutatePopulation_at 1) s) !!! i) j = d
       ∧ gene_in_domain d).
Proof.
  assert (Hrule : ∀ rate s,
    population_shape (population s) →
    rng (exec (mutatePopulation_at rate) s)
    = MutationRule.generator_at rate (population s) (rng s)
        (NUM_STEPS * POP_SIZE)
    ∧ ∀ i j, (i < POP_SIZE)%nat → (j < NUM_STEPS)%nat →
        gene_at (population (exec (mutatePopulation_at rate) s) !!! i) j
        = MutationRule.mutated_gene rate (population s) (rng s)
            (NUM_STEPS * i + j)).
  { intros rate s [Hlen Hshape]. apply mutatePopulation_at_rule; [exact Hlen|].
    apply (List.Forall_impl _ genome_shape_lengths). exact Hshape. }
  split_and!.
  - vm_compute. reflexivity.
  - vm_compute. reflexivity.
  - vm_compute. reflexivity.
  - intros s. apply (Hrule MUT_RATE s).
  - exact Hrule.
  - apply mutatePopulation_zero_effect.
  - intros s i j Hs Hi Hj d. split.
    + by apply mutatePopulation_one_effect.
    + apply mutation_draws_in_domain.
Qed.

Lemma mutation_is_per_field_bernoulli_witness :
  gene_at (population champions !!! 2%nat) 5%nat = (0, 1, 1, 0)
  ∧ gene_at (population (exec mutatePopulation champions) !!! 2%nat) 5%nat
    = (0, 0, 1, 0)
  ∧ gene_at (population (exec (mutatePopulation_at (1 # 2)) power_on) !!! 2%nat)
      5%nat
    = MutationRule.mutated_gene (1 # 2) (population power_on) (rng power_on) 133
  ∧ population (exec (mutatePopulation_at 0) power_on) = population power_on
  ∧ gene_at (population (exec (mutatePopulation_at 1) power_on) !!! 2%nat) 5%nat
    = mutation_draws sample_raw 1064.
Proof.
  pose proof mutation_is_per_field_bernoulli
    as (_ & Hshipped & Hrate & Hzero & Hone).
  assert (Hc : population_shape (population champions))
    by (apply (bool_decide_unpack _); vm_compute; exact I).
  assert (Hp : population_shape (population power_on))
    by (apply (bool_decide_unpack _); vm_compute; exact I).
  split_and!.
  - vm_compute. reflexivity.
  - rewrite (proj2 (Hshipped champions Hc) 2%nat 5%nat
               ltac:(unfold POP_SIZE; lia) ltac:(unfold NUM_STEPS; lia)).
    vm_compute. reflexivity.
  - apply (proj2 (Hrate (1 # 2)%Q power_on Hp) 2%nat 5%nat);
      [unfold POP_SIZE; lia | unfold NUM_STEPS; lia].
  - apply (Hzero power_on).
  - apply (Hone power_on 2%nat 5%nat Hp);
      [unfold POP_SIZE; lia | unfold NUM_STEPS; lia].
Defined.
